(** * Weekly shift scheduling: [generateSchedule] of src/App.tsx

  A shallow embedding of the assignment loop of [generateSchedule]
  (src/App.tsx) over the types and constant tables of src/types.ts,
  followed by the properties of the schedule and of the warning list
  it produces.

  Modelling conventions:
  - the React state [volunteers] is the roster argument, the JSON body
    of [/api/schedules/<lastWeekStart>] is the [lastWeekData] argument
    and [currentWeekStart] is a string argument;
  - [setWarnings([])] followed by [setWarnings(prev => [...prev, w])]
    is a list of strings that grows at its end;
  - [usedThisWeek : Map<number, Set<RoleFunction>>] is a
    [gmap Z (gset RoleFunction)];
  - [Math.random()] is a sequence of exact rationals in [0, 1), the
    k-th call returning the k-th element, and the product and the floor
    of [Math.floor(Math.random() * candidates.length)] are exact. The
    code computes the product in binary64 arithmetic, where it is
    rounded: [binary64_index_in_range] and [exact_index_reaches] show
    that the index so computed is in range and is the index of the
    exact computation for some rational draw, so a run of the code is a
    run of this model for some sequence of draws;
  - [candidates[k]] is [undefined] when [k] is out of range, and
    [selected.id] then throws: the loop body returns [None]. *)

From Stdlib Require Import QArith Qround SpecFloat.
From stdpp Require Import gmap strings list sorting.

Local Open Scope string_scope.
Local Open Scope list_scope.

(** * Part I: definitions *)

(** ** src/types.ts *)

Inductive ServiceType : Set :=
  | Domingo
  | Miercoles
  | SabadoManana
  | SabadoTarde.

Inductive RoleFunction : Set :=
  | Consola
  | Transmision
  | Proyeccion
  | MediosDigitales
  | Coordinacion.

(** The string each constructor stands for in the source. *)
Definition service_name (s : ServiceType) : string :=
  match s with
  | Domingo => "Domingo"
  | Miercoles => "Miércoles"
  | SabadoManana => "Sábado Mañana"
  | SabadoTarde => "Sábado Tarde"
  end.

Definition role_name (r : RoleFunction) : string :=
  match r with
  | Consola => "Consola"
  | Transmision => "Transmisión"
  | Proyeccion => "Proyección"
  | MediosDigitales => "Medios Digitales"
  | Coordinacion => "Coordinación"
  end.

#[global] Instance ServiceType_eq_dec : EqDecision ServiceType.
Proof. solve_decision. Defined.

#[global] Instance RoleFunction_eq_dec : EqDecision RoleFunction.
Proof. solve_decision. Defined.

Definition role_code (r : RoleFunction) : nat :=
  match r with
  | Consola => 0
  | Transmision => 1
  | Proyeccion => 2
  | MediosDigitales => 3
  | Coordinacion => 4
  end.

Definition role_of_code (n : nat) : RoleFunction :=
  match n with
  | 0 => Consola
  | 1 => Transmision
  | 2 => Proyeccion
  | 3 => MediosDigitales
  | _ => Coordinacion
  end.

#[global] Instance RoleFunction_countable : Countable RoleFunction.
Proof.
  apply (inj_countable' role_code role_of_code).
  intros r; destruct r; reflexivity.
Defined.

Record Volunteer : Type := {
  id : Z;
  name : string;
  functions : list RoleFunction;
  availability : list ServiceType;
  restrictions : list string;
  total_score : Z
}.

(** [row_id] is the optional [id] of the interface; [volunteer_id] is
    [number | null]. *)
Record ScheduleAssignment : Type := {
  row_id : option Z;
  week_start : string;
  service_type : ServiceType;
  function_name : RoleFunction;
  volunteer_id : option Z
}.

Definition ALL_FUNCTIONS : list RoleFunction :=
  [Consola; Transmision; Proyeccion; MediosDigitales; Coordinacion].

Definition ALL_SERVICES : list ServiceType :=
  [Domingo; Miercoles; SabadoManana; SabadoTarde].

(** ** The random source *)

(** One result of [Math.random()]: a number that is at least 0 and
    below 1. *)
Record Random : Type := {
  value : Q;
  value_range : (0 <= value)%Q ∧ (value < 1)%Q
}.

(** ** src/App.tsx, [generateSchedule] *)

Record LoopState : Type := {
  assignments : list ScheduleAssignment;
  usedThisWeek : gmap Z (gset RoleFunction);
  warnings : list string;
  randomCalls : nat
}.

(** [new Set(lastWeekData.map(s => s.volunteer_id))] *)
Definition lastWeekVolunteers (lastWeekData : list ScheduleAssignment)
  : gset (option Z) :=
  list_to_set (map volunteer_id lastWeekData).

(** [usedThisWeek.get(v.id) || new Set()] *)
Definition rolesUsedOf (used : gmap Z (gset RoleFunction)) (vid : Z)
  : gset RoleFunction :=
  default ∅ (used !! vid).

(** The callback of the first [volunteers.filter]. *)
Definition strictFilter (lastWeek : gset (option Z))
    (used : gmap Z (gset RoleFunction))
    (service : ServiceType) (role : RoleFunction) (v : Volunteer) : bool :=
  if negb (bool_decide (service ∈ availability v)) then false
  else if negb (bool_decide (role ∈ functions v)) then false
  else if bool_decide (Some (id v) ∈ lastWeek) then false
  else
    let rolesUsed := rolesUsedOf used (id v) in
    if bool_decide (0 < size rolesUsed)%nat then
      let isCoord :=
        bool_decide (role = Coordinacion)
        || bool_decide (Coordinacion ∈ rolesUsed) in
      if negb isCoord then false else true
    else true.

(** The callback of the second [volunteers.filter]. *)
Definition relaxedFilter (used : gmap Z (gset RoleFunction))
    (service : ServiceType) (role : RoleFunction) (v : Volunteer) : bool :=
  if negb (bool_decide (service ∈ availability v)) then false
  else
    let rolesUsed := rolesUsedOf used (id v) in
    if bool_decide (0 < size rolesUsed)%nat then
      let isCoord :=
        bool_decide (role = Coordinacion)
        || bool_decide (Coordinacion ∈ rolesUsed) in
      if negb isCoord then false else true
    else true.

Definition relaxedWarning (role : RoleFunction) (service : ServiceType)
  : string :=
  "Aviso: Se asignó a alguien no preferente para "
    +:+ role_name role +:+ " en " +:+ service_name service.

Definition vacancyWarning (role : RoleFunction) (service : ServiceType)
  : string :=
  "Error: No hay voluntarios disponibles para "
    +:+ role_name role +:+ " en " +:+ service_name service.

(** [Math.floor(Math.random() * candidates.length)] *)
Definition randomIndex (r : Random) (len : nat) : Z :=
  Qfloor (value r * inject_Z (Z.of_nat len)).

(** [arr[k]] for a number [k]: [None] is [undefined]. *)
Definition at_index {A : Type} (arr : list A) (k : Z) : option A :=
  if (k <? 0)%Z then None else arr !! Z.to_nat k.

(** [neededFunctions] of the outer loop. *)
Definition neededFunctions (service : ServiceType) : list RoleFunction :=
  if bool_decide (service = Domingo) then [Transmision] else ALL_FUNCTIONS.

(** [for (const x of xs) body], with a body that may throw. *)
Fixpoint for_of {A S : Type} (xs : list A) (body : A → S → option S)
    (st : S) : option S :=
  match xs with
  | [] => Some st
  | x :: xs' =>
      match body x st with
      | Some st' => for_of xs' body st'
      | None => None
      end
  end.

Section GenerateSchedule.

Variable volunteers : list Volunteer.
Variable lastWeekData : list ScheduleAssignment.
Variable currentWeekStart : string.
Variable random : nat → Random.

(** The object pushed on [assignments]. *)
Definition newAssignment (service : ServiceType) (role : RoleFunction)
    (vid : option Z) : ScheduleAssignment :=
  {| row_id := None;
     week_start := currentWeekStart;
     service_type := service;
     function_name := role;
     volunteer_id := vid |}.

Definition strictCandidates (st : LoopState) (service : ServiceType)
    (role : RoleFunction) : list Volunteer :=
  List.filter
    (strictFilter (lastWeekVolunteers lastWeekData) (usedThisWeek st)
       service role)
    volunteers.

Definition relaxedCandidates (st : LoopState) (service : ServiceType)
    (role : RoleFunction) : list Volunteer :=
  List.filter (relaxedFilter (usedThisWeek st) service role) volunteers.

(** The body of the inner loop, for one (service, role). *)
Definition slotBody (service : ServiceType) (role : RoleFunction)
    (st : LoopState) : option LoopState :=
  let candidates := strictCandidates st service role in
  let '(candidates, warns) :=
    if bool_decide (length candidates = 0)%nat then
      let candidates := relaxedCandidates st service role in
      if bool_decide (0 < length candidates)%nat
      then (candidates, warnings st ++ [relaxedWarning role service])
      else (candidates, warnings st)
    else (candidates, warnings st) in
  if bool_decide (0 < length candidates)%nat then
    let k := randomIndex (random (randomCalls st)) (length candidates) in
    match at_index candidates k with
    | None => None
    | Some selected =>
        let currentRoles := rolesUsedOf (usedThisWeek st) (id selected) in
        Some {| assignments :=
                  assignments st
                    ++ [newAssignment service role (Some (id selected))];
                usedThisWeek :=
                  <[id selected := {[role]} ∪ currentRoles]>
                    (usedThisWeek st);
                warnings := warns;
                randomCalls := S (randomCalls st) |}
    end
  else
    Some {| assignments :=
              assignments st ++ [newAssignment service role None];
            usedThisWeek := usedThisWeek st;
            warnings := warns ++ [vacancyWarning role service];
            randomCalls := randomCalls st |}.

Definition initialState : LoopState :=
  {| assignments := [];
     usedThisWeek := ∅;
     warnings := [];
     randomCalls := 0 |}.

(** The two nested loops, and what the function leaves behind: the
    list posted to [/api/schedules] and the [warnings] state. *)
Definition generateSchedule
  : option (list ScheduleAssignment * list string) :=
  match
    for_of ALL_SERVICES
      (λ service st,
         for_of (neededFunctions service)
           (λ role st', slotBody service role st') st)
      initialState
  with
  | Some st => Some (assignments st, warnings st)
  | None => None
  end.

End GenerateSchedule.

(** ** Auxiliary definitions for the statements *)

Definition slot_of (a : ScheduleAssignment) : ServiceType * RoleFunction :=
  (service_type a, function_name a).

(** The slots in the order in which the two loops visit them. *)
Definition visitedSlots : list (ServiceType * RoleFunction) :=
  flat_map (λ service, map (pair service) (neededFunctions service))
    ALL_SERVICES.

(** The state after a slot has been given to [selected]. *)
Definition assignedState (week : string) (st : LoopState)
    (service : ServiceType) (role : RoleFunction) (selected : Volunteer)
    (warns : list string) : LoopState :=
  {| assignments :=
       assignments st
         ++ [newAssignment week service role (Some (id selected))];
     usedThisWeek :=
       <[id selected :=
           {[role]} ∪ rolesUsedOf (usedThisWeek st) (id selected)]>
         (usedThisWeek st);
     warnings := warns;
     randomCalls := S (randomCalls st) |}.

(** The state after a slot has been left vacant. *)
Definition vacantState (week : string) (st : LoopState)
    (service : ServiceType) (role : RoleFunction) : LoopState :=
  {| assignments := assignments st ++ [newAssignment week service role None];
     usedThisWeek := usedThisWeek st;
     warnings := warnings st ++ [vacancyWarning role service];
     randomCalls := randomCalls st |}.

(** The weekly limit, as both callbacks test it. *)
Definition weeklyLimitAllows (used : gmap Z (gset RoleFunction))
    (role : RoleFunction) (vid : Z) : Prop :=
  rolesUsedOf used vid = ∅
  ∨ role = Coordinacion
  ∨ Coordinacion ∈ rolesUsedOf used vid.

(** ** The index in binary64 arithmetic

    What [Math.floor(Math.random() * candidates.length)] computes on
    JavaScript Numbers, over the IEEE 754 binary64 operations of the
    standard library ([SFmul] at precision 53 and exponent bound 1024).
    The loop above reads the index of [randomIndex]; these definitions
    serve to relate the two. *)

(** A Number that [Math.random()] can return: a binary64 Number that is
    at least 0 and below 1. *)
Definition is_random_number (x : spec_float) : bool :=
  valid_binary 53 1024 x
  && SFleb (S754_zero false) x
  && SFltb x (SFone 53 1024).

(** [candidates.length] as a Number. *)
Definition number_of_length (len : nat) : spec_float :=
  binary_normalize 53 1024 (Z.of_nat len) 0 false.

(** [Math.floor] of a Number, as an integer; [None] for NaN and the
    infinities, which index nothing. *)
Definition floor_number (x : spec_float) : option Z :=
  match x with
  | S754_zero _ => Some 0%Z
  | S754_finite s m e =>
      let v := if s then Zneg m else Zpos m in
      Some (if (0 <=? e)%Z then (v * 2 ^ e)%Z else (v / 2 ^ (- e))%Z)
  | S754_infinity _ | S754_nan => None
  end.

Definition binary64Index (x : spec_float) (len : nat) : option Z :=
  floor_number (SFmul 53 1024 x (number_of_length len)).

(** The Number with mantissa [W] and exponent [g], as the rounding of a
    positive Number returns it. *)
Definition rounded_number (W g : Z) : spec_float :=
  match W with
  | Z0 => S754_zero false
  | Zpos w =>
      if (g <=? 971)%Z then S754_finite false w g else S754_infinity false
  | Zneg _ => S754_nan
  end.

(** The largest Number below 1 over 3, times 3, is rounded up to 2. *)
Definition two_thirds_number : spec_float :=
  S754_finite false 6004799503160661 (-53).

(** ** What the loop does, as relations and invariants *)

Section Outcomes.

Variable volunteers : list Volunteer.
Variable lastWeekData : list ScheduleAssignment.
Variable currentWeekStart : string.

#[local] Abbreviation strict := (strictCandidates volunteers lastWeekData).
#[local] Abbreviation relaxed := (relaxedCandidates volunteers).

(** What one iteration does, by the three ways through it. *)
Inductive slot_outcome (st : LoopState) (service : ServiceType)
    (role : RoleFunction) : LoopState → Prop :=
  | outcome_strict selected :
      selected ∈ strict st service role →
      slot_outcome st service role
        (assignedState currentWeekStart st service role selected
           (warnings st))
  | outcome_relaxed selected :
      strict st service role = [] →
      selected ∈ relaxed st service role →
      slot_outcome st service role
        (assignedState currentWeekStart st service role selected
           (warnings st ++ [relaxedWarning role service]))
  | outcome_vacant :
      strict st service role = [] →
      relaxed st service role = [] →
      slot_outcome st service role
        (vacantState currentWeekStart st service role).

Inductive slots_outcome
  : list (ServiceType * RoleFunction) → LoopState → LoopState → Prop :=
  | slots_done st : slots_outcome [] st st
  | slots_next service role slots st st1 st2 :
      slot_outcome st service role st1 →
      slots_outcome slots st1 st2 →
      slots_outcome ((service, role) :: slots) st st2.

(** Every id in the schedule is the id of a volunteer of the roster
    who is available for the service of the slot. *)
Definition available_inv (st : LoopState) : Prop :=
  ∀ a i, a ∈ assignments st → volunteer_id a = Some i →
    ∃ v, v ∈ volunteers ∧ id v = i
         ∧ service_type a ∈ availability v.

(** A slot is filled either from the first filter, or with the
    warning of the second one. *)
Definition preferred_inv (st : LoopState) : Prop :=
  ∀ a i, a ∈ assignments st → volunteer_id a = Some i →
    (∃ v, v ∈ volunteers ∧ id v = i
          ∧ function_name a ∈ functions v
          ∧ (Some i ∉ lastWeekVolunteers lastWeekData))
    ∨ relaxedWarning (function_name a) (service_type a) ∈ warnings st.

(** The vacant slots are the ones with a vacancy warning. *)
Definition vacancy_inv (st : LoopState) : Prop :=
  ∀ service role,
    (∃ a, a ∈ assignments st ∧ slot_of a = (service, role)
          ∧ volunteer_id a = None)
    ↔ vacancyWarning role service ∈ warnings st.

(** [usedThisWeek] holds, per id, the roles of its assignments. *)
Definition used_inv (st : LoopState) : Prop :=
  ∀ i role,
    role ∈ rolesUsedOf (usedThisWeek st) i
    ↔ ∃ a, a ∈ assignments st ∧ volunteer_id a = Some i
           ∧ function_name a = role.

(** A second slot of a volunteer is Coordinación, or comes after a
    Coordinación slot of the same volunteer. *)
Definition coordination_inv (st : LoopState) : Prop :=
  ∀ j k a b i,
    (k < j)%nat →
    assignments st !! j = Some a → volunteer_id a = Some i →
    assignments st !! k = Some b → volunteer_id b = Some i →
    function_name a = Coordinacion
    ∨ ∃ m c, (m < j)%nat ∧ assignments st !! m = Some c
             ∧ volunteer_id c = Some i
             ∧ function_name c = Coordinacion.

Definition loop_inv (st : LoopState) : Prop :=
  available_inv st
  ∧ preferred_inv st
  ∧ vacancy_inv st
  ∧ used_inv st
  ∧ coordination_inv st.

End Outcomes.

(** The loops flattened: the slots one after the other. *)
Definition runSlots (volunteers : list Volunteer)
    (lastWeekData : list ScheduleAssignment) (currentWeekStart : string)
    (random : nat → Random) (slots : list (ServiceType * RoleFunction))
    (st : LoopState) : option LoopState :=
  for_of slots
    (λ slot st',
       slotBody volunteers lastWeekData currentWeekStart random
         slot.1 slot.2 st')
    st.

(** ** The specification's words *)

(** The needed slots in the words of the specification: every
    (service, role) combination, except that Domingo only needs
    Transmisión. *)
Definition spec_needed (service : ServiceType) (role : RoleFunction) : Prop :=
  service ≠ Domingo ∨ role = Transmision.

#[global] Instance spec_needed_dec service role :
  Decision (spec_needed service role).
Proof. unfold spec_needed. apply _. Defined.

(** The needed slots, services in the canonical order and roles in the
    canonical order within each service. *)
Definition spec_needed_slots : list (ServiceType * RoleFunction) :=
  List.filter (λ slot, bool_decide (spec_needed slot.1 slot.2))
    (list_prod ALL_SERVICES ALL_FUNCTIONS).

(** How many assignments of a schedule are for a given slot. *)
Definition slot_count (schedule : list ScheduleAssignment)
    (service : ServiceType) (role : RoleFunction) : nat :=
  length
    (List.filter (λ a, bool_decide (slot_of a = (service, role))) schedule).

(** The ids of last week, in the words of the specification. *)
Definition spec_recentlyServed
    (previousWeekAssignments : list ScheduleAssignment) : gset Z :=
  list_to_set (omap volunteer_id previousWeekAssignments).

(** The strict pass in the words of the specification. *)
Definition spec_strict_eligible
    (previousWeekAssignments : list ScheduleAssignment)
    (loadThisWeek : gmap Z (gset RoleFunction))
    (S : ServiceType) (R : RoleFunction) (v : Volunteer) : Prop :=
  S ∈ availability v
  ∧ R ∈ functions v
  ∧ (id v ∉ spec_recentlyServed previousWeekAssignments)
  ∧ (default ∅ (loadThisWeek !! id v) = ∅
     ∨ R = Coordinacion
     ∨ Coordinacion ∈ default ∅ (loadThisWeek !! id v)).

#[global] Instance spec_strict_eligible_dec prev load S R v :
  Decision (spec_strict_eligible prev load S R v).
Proof. unfold spec_strict_eligible. apply _. Defined.


(** The weekly limit in the words of the specification: no volunteer id
    with two different roles that are both not Coordinación. *)
Definition spec_one_role_besides_coordination
    (schedule : list ScheduleAssignment) : Prop :=
  ∀ a b i,
    a ∈ schedule → b ∈ schedule →
    volunteer_id a = Some i → volunteer_id b = Some i →
    function_name a ≠ Coordinacion → function_name b ≠ Coordinacion →
    function_name a = function_name b.

(** Scenario A in the words of the specification: one assignment and no
    warning. *)
Definition spec_scenarioA_result (week : string)
    (schedule : list ScheduleAssignment) (warns : list string) : Prop :=
  schedule = [newAssignment week Domingo Transmision (Some 1%Z)]
  ∧ warns = [].


(** ** Example inputs *)

Definition random_zero : Random :=
  {| value := 0; value_range := conj (Qle_refl 0) eq_refl |}.

Definition random_half : Random :=
  {| value := 1 # 2;
     value_range := conj Z.le_0_1 eq_refl |}.

(** The volunteer of scenarios A and B. *)
Definition scenario_volunteer (nm : string) (score : Z) : Volunteer :=
  {| id := 1;
     name := nm;
     functions := [Transmision];
     availability := [Domingo];
     restrictions := [];
     total_score := score |}.

(** The row of last week in scenario B. *)
Definition scenarioB_row (rid : option Z) (wk : string)
  : ScheduleAssignment :=
  {| row_id := rid;
     week_start := wk;
     service_type := Domingo;
     function_name := Transmision;
     volunteer_id := Some 1%Z |}.

(** Scenario C: available on Miércoles, prefers Transmisión only. *)
Definition scenarioC_volunteer : Volunteer :=
  {| id := 1;
     name := "C";
     functions := [Transmision];
     availability := [Miercoles];
     restrictions := [];
     total_score := 0 |}.

(** Prefers Consola and Coordinación, available on Miércoles and on
    Sábado Mañana. *)
Definition coordinator_volunteer : Volunteer :=
  {| id := 1;
     name := "D";
     functions := [Consola; Coordinacion];
     availability := [Miercoles; SabadoManana];
     restrictions := [];
     total_score := 0 |}.

(** The slots visited after Domingo, left vacant. *)
Definition other_slots_vacant (week : string) : list ScheduleAssignment :=
  map (λ slot, newAssignment week slot.1 slot.2 None) (tail visitedSlots).

Definition other_slots_warnings : list string :=
  map (λ slot, vacancyWarning slot.2 slot.1) (tail visitedSlots).

(** The weekly limit in terms of the rows pushed so far: the role is
    not Coordinación, and the volunteer holds a row, none of them
    Coordinación. *)
Definition weeklyBlocked (earlier : list ScheduleAssignment)
    (role : RoleFunction) (vid : Z) : Prop :=
  role ≠ Coordinacion
  ∧ (∃ b, b ∈ earlier ∧ volunteer_id b = Some vid)
  ∧ (∀ c, c ∈ earlier → volunteer_id c = Some vid →
       function_name c ≠ Coordinacion).

(** A row is vacant exactly when the weekly limit stops every volunteer
    who is available for its service. *)
Definition vacancy_reason (volunteers : list Volunteer)
    (schedule : list ScheduleAssignment) : Prop :=
  ∀ j a, schedule !! j = Some a →
    (volunteer_id a = None
     ↔ ∀ v, v ∈ volunteers → service_type a ∈ availability v →
         weeklyBlocked (take j schedule) (function_name a) (id v)).

(** What the assignment loop reads of a volunteer: the id, the
    functions and the availability. *)
Definition schedulingView (v : Volunteer) : Volunteer :=
  {| id := id v;
     name := EmptyString;
     functions := functions v;
     availability := availability v;
     restrictions := [];
     total_score := 0 |}.

(** ** src/App.tsx, the views

    What the component renders from the [volunteers] and [schedules]
    states. [schedules] is the JSON body of [/api/schedules/<week>]: the
    rows of the week, with their ids. *)

(** One cell of the week grid: the three branches of the JSX. A name is
    [None] when [volunteers.find] finds nobody, and nothing is shown. *)
Inductive GridCell : Type :=
  | CellNotApplicable
  | CellVacante
  | CellName (nm : option string).

(** [!isSunday || func === "Transmisión"] *)
Definition isNeeded (service : ServiceType) (func : RoleFunction) : bool :=
  negb (bool_decide (service = Domingo)) || bool_decide (func = Transmision).

(** [schedules.find(s => s.service_type === service &&
    s.function_name === func)] *)
Definition findAssignment (schedules : list ScheduleAssignment)
    (service : ServiceType) (func : RoleFunction)
  : option ScheduleAssignment :=
  List.find
    (λ s, bool_decide (service_type s = service)
          && bool_decide (function_name s = func))
    schedules.

(** The cell of [func] and [service]: [assignment?.volunteer_id] is
    tested for truth, so a missing row, a null id and the id 0 all show
    "Vacante". *)
Definition gridCell (volunteers : list Volunteer)
    (schedules : list ScheduleAssignment)
    (service : ServiceType) (func : RoleFunction) : GridCell :=
  if isNeeded service func then
    match findAssignment schedules service func with
    | Some assignment =>
        match volunteer_id assignment with
        | Some i =>
            if (i =? 0)%Z then CellVacante
            else
              CellName
                (name <$> List.find (λ v, bool_decide (id v = i)) volunteers)
        | None => CellVacante
        end
    | None => CellVacante
    end
  else CellNotApplicable.

(** The "Asignados" figure:
    [new Set(schedules.map(s => s.volunteer_id)).size] *)
Definition asignados (schedules : list ScheduleAssignment) : nat :=
  size (list_to_set (map volunteer_id schedules) : gset (option Z)).

(** The shifts of the volunteer panel: the panel is rendered when
    [selectedVolunteerId] is true (not null, not 0), and lists
    [schedules.filter(s => s.volunteer_id === selectedVolunteerId)]. *)
Definition volunteerPanel (schedules : list ScheduleAssignment)
    (selectedVolunteerId : option Z) : option (list ScheduleAssignment) :=
  match selectedVolunteerId with
  | Some i =>
      if (i =? 0)%Z then None
      else
        Some
          (List.filter (λ s, bool_decide (volunteer_id s = Some i)) schedules)
  | None => None
  end.

(** What the views read of a row. *)
Definition row_view (a : ScheduleAssignment)
  : ServiceType * RoleFunction * option Z :=
  (service_type a, function_name a, volunteer_id a).

(** [(a, b) => b.total_score - a.total_score] *)
Definition compareScore (a b : Volunteer) : Z :=
  (total_score b - total_score a)%Z.

(** [Array.prototype.sort] with a comparison function: the sort is
    stable, so its result is the one of inserting each element before
    the first one that it does not have to follow. *)
Fixpoint insertSorted {A : Type} (compareFn : A → A → Z) (x : A)
    (sorted : list A) : list A :=
  match sorted with
  | [] => [x]
  | y :: sorted' =>
      if (compareFn x y <=? 0)%Z then x :: y :: sorted'
      else y :: insertSorted compareFn x sorted'
  end.

Definition sortStable {A : Type} (compareFn : A → A → Z) (l : list A)
  : list A :=
  foldr (insertSorted compareFn) [] l.

(** [[...volunteers].sort(...).slice(0, 10)] *)
Definition top10Volunteers (volunteers : list Volunteer) : list Volunteer :=
  take 10 (sortStable compareScore volunteers).

(** [a] may stand before [b]: its score is not lower. *)
Definition score_order (a b : Volunteer) : Prop :=
  (total_score b ≤ total_score a)%Z.

(** Those with a given score, in the order of the list. *)
Definition withScore (score : Z) (l : list Volunteer) : list Volunteer :=
  List.filter (λ v, bool_decide (total_score v = score)) l.

(** ** src/App.tsx, the registration form *)

(** [current.includes(f) ? current.filter(x => x !== f) : [...current, f]] *)
Definition toggle {A : Type} `{EqDecision A} (f : A) (current : list A)
  : list A :=
  if bool_decide (f ∈ current)
  then List.filter (λ x, negb (bool_decide (x = f))) current
  else current ++ [f].

(** The selection after a sequence of clicks on the buttons. *)
Definition afterClicks {A : Type} `{EqDecision A} (current : list A)
    (clicks : list A) : list A :=
  foldl (λ selection f, toggle f selection) current clicks.

(** How often the button of [x] was clicked. *)
Definition clicksOn {A : Type} `{EqDecision A} (x : A) (clicks : list A)
  : nat :=
  length (List.filter (λ f, bool_decide (f = x)) clicks).

(** The line feed that separates the notes. *)
Definition newline : Ascii.ascii := Ascii.ascii_of_nat 10.

(** [text.split('\n')] *)
Fixpoint split_lines (text : string) : list string :=
  match text with
  | EmptyString => [EmptyString]
  | String c rest =>
      if Ascii.eqb c newline then EmptyString :: split_lines rest
      else
        match split_lines rest with
        | first :: others => String c first :: others
        | [] => [String c EmptyString]
        end
  end.

(** [notes.join('\n')] *)
Fixpoint join_lines (notes : list string) : string :=
  match notes with
  | [] => EmptyString
  | [note] => note
  | note :: notes' => note +:+ String newline (join_lines notes')
  end.

(** The string has no line feed. *)
Fixpoint one_line (text : string) : bool :=
  match text with
  | EmptyString => true
  | String c rest => negb (Ascii.eqb c newline) && one_line rest
  end.

(** The [newVolunteer] state: the fields of the form. *)
Record VolunteerForm : Type := {
  new_name : string;
  new_functions : list RoleFunction;
  new_availability : list ServiceType;
  new_restrictions : list string
}.

(** The form after [setNewVolunteer({ name: '', functions: [],
    availability: [], restrictions: [] })], which is also its first
    state. *)
Definition emptyForm : VolunteerForm :=
  {| new_name := EmptyString;
     new_functions := [];
     new_availability := [];
     new_restrictions := [] |}.

(** What the user does in the form. *)
Inductive FormEvent : Type :=
  | TypeName (text : string)
  | ClickFunction (f : RoleFunction)
  | ClickService (s : ServiceType)
  | TypeNotes (text : string).

(** The [onChange] and [onClick] handlers of the form. *)
Definition formStep (form : VolunteerForm) (event : FormEvent)
  : VolunteerForm :=
  match event with
  | TypeName text =>
      {| new_name := text;
         new_functions := new_functions form;
         new_availability := new_availability form;
         new_restrictions := new_restrictions form |}
  | ClickFunction f =>
      {| new_name := new_name form;
         new_functions := toggle f (new_functions form);
         new_availability := new_availability form;
         new_restrictions := new_restrictions form |}
  | ClickService s =>
      {| new_name := new_name form;
         new_functions := new_functions form;
         new_availability := toggle s (new_availability form);
         new_restrictions := new_restrictions form |}
  | TypeNotes text =>
      {| new_name := new_name form;
         new_functions := new_functions form;
         new_availability := new_availability form;
         new_restrictions := split_lines text |}
  end.

(** The check of [registerVolunteer]: [Some] is the body posted to
    [/api/volunteers], [None] is the alert. *)
Definition registerVolunteer (form : VolunteerForm) : option VolunteerForm :=
  if bool_decide (new_name form = EmptyString)
     || bool_decide (length (new_functions form) = 0)%nat
     || bool_decide (length (new_availability form) = 0)%nat
  then None
  else Some form.

(** The clicks on the function buttons, and on the day buttons, among
    the events. *)
Definition functionClicks (events : list FormEvent) : list RoleFunction :=
  omap (λ event, match event with ClickFunction f => Some f | _ => None end)
    events.

Definition serviceClicks (events : list FormEvent) : list ServiceType :=
  omap (λ event, match event with ClickService s => Some s | _ => None end)
    events.

(** The notes of a form: none yet, or the lines of a text. *)
Definition notes_of_form (notes : list string) : Prop :=
  notes = []
  ∨ (notes ≠ [] ∧ Forall (λ note, one_line note = true) notes).

(** * Part II: properties *)

(** ** The random index *)

Lemma randomIndex_range (r : Random) (len : nat) :
  (0 < len)%nat → (0 ≤ randomIndex r len < Z.of_nat len)%Z.
Proof.
  intros Hlen. unfold randomIndex.
  destruct (value_range r) as [Hlo Hhi].
  assert (Hpos : (0 < inject_Z (Z.of_nat len))%Q).
  { rewrite <- (Zlt_Qlt 0). lia. }
  split.
  - change 0%Z with (Qfloor 0). apply Qfloor_resp_le.
    apply Qmult_le_0_compat; [exact Hlo | apply Qlt_le_weak, Hpos].
  - rewrite Zlt_Qlt.
    eapply Qle_lt_trans; [apply Qfloor_le |].
    rewrite <- (Qmult_1_l (inject_Z (Z.of_nat len))) at 2.
    apply Qmult_lt_compat_r; assumption.
Qed.

Lemma at_index_in_range {A : Type} (arr : list A) (k : Z) :
  (0 ≤ k < Z.of_nat (length arr))%Z →
  ∃ x, at_index arr k = Some x ∧ x ∈ arr.
Proof.
  intros [Hlo Hhi]. unfold at_index.
  destruct (k <? 0)%Z eqn:Hneg; [lia |].
  destruct (lookup_lt_is_Some_2 arr (Z.to_nat k)) as [x Hx]; [lia |].
  exists x. split; [exact Hx |].
  apply list_elem_of_lookup. eauto.
Qed.

Lemma random_pick (r : Random) {A : Type} (arr : list A) :
  (0 < length arr)%nat →
  ∃ x, at_index arr (randomIndex r (length arr)) = Some x ∧ x ∈ arr.
Proof.
  intros Hlen. apply at_index_in_range, randomIndex_range, Hlen.
Qed.

(** ** Binary64 rounding keeps the index in range *)

Section Binary64.

Local Open Scope Z_scope.

Lemma iter_pos_nat {A : Type} (f : A -> A) (p : positive) : forall x,
  SpecFloat.iter_pos f p x = Nat.iter (Pos.to_nat p) f x.
Proof.
  induction p as [p IH | p IH |]; intros x.
  - cbn [SpecFloat.iter_pos]. rewrite !IH, Pos2Nat.inj_xI.
    replace (S (2 * Pos.to_nat p))%nat
      with (Pos.to_nat p + S (Pos.to_nat p))%nat by lia.
    rewrite Nat.iter_add. f_equal. now rewrite Nat.iter_succ_r.
  - cbn [SpecFloat.iter_pos]. rewrite !IH, Pos2Nat.inj_xO.
    replace (2 * Pos.to_nat p)%nat
      with (Pos.to_nat p + Pos.to_nat p)%nat by lia.
    now rewrite Nat.iter_add.
  - reflexivity.
Qed.

Lemma digits2_pos_size (m : positive) : digits2_pos m = Pos.size m.
Proof. induction m; simpl; congruence. Qed.

Lemma digits2_pos_bounds (m : positive) :
  2 ^ (Zpos (digits2_pos m) - 1) <= Zpos m < 2 ^ Zpos (digits2_pos m).
Proof.
  rewrite digits2_pos_size. split.
  - pose proof (Pos.size_le m) as H.
    apply Pos2Z.pos_le_pos in H. rewrite Pos2Z.inj_pow in H.
    change (Zpos m~0) with (2 * Zpos m) in H.
    replace (Zpos (Pos.size m)) with (Z.succ (Zpos (Pos.size m) - 1)) in H by lia.
    rewrite Z.pow_succ_r in H by lia. lia.
  - pose proof (Pos.size_gt m) as H.
    apply Pos2Z.pos_lt_pos in H. now rewrite Pos2Z.inj_pow in H.
Qed.

Lemma shr_1_nonneg (m : Z) (r s : bool) :
  0 <= m ->
  shr_1 (Build_shr_record m r s) = Build_shr_record (Z.div2 m) (Z.odd m) (r || s).
Proof.
  intros Hm. destruct m as [|[p|p|]|p]; try reflexivity. lia.
Qed.

Lemma shr_steps (M : Z) (k : nat) :
  0 <= M ->
  let mrs := Nat.iter k shr_1 (Build_shr_record M false false) in
  shr_m mrs = M / 2 ^ Z.of_nat k
  /\ (shr_r mrs = true ->
      (0 < k)%nat /\ Z.odd (M / 2 ^ (Z.of_nat k - 1)) = true).
Proof.
  intros HM. induction k as [|k IH].
  - simpl. split; [now rewrite Z.div_1_r | discriminate].
  - cbn zeta in *. rewrite Nat.iter_succ.
    destruct (Nat.iter k shr_1 _) as [m r s] eqn:Hit. simpl in IH.
    destruct IH as [Hm _].
    assert (0 <= m) as Hpos.
    { rewrite Hm. apply Z.div_pos; [lia | apply Z.pow_pos_nonneg; lia]. }
    rewrite shr_1_nonneg by exact Hpos. cbn [shr_m shr_r]. split.
    + rewrite Z.div2_div, Hm, Z.div_div by (try apply Z.pow_pos_nonneg; lia).
      rewrite Nat2Z.inj_succ, Z.pow_succ_r by lia.
      f_equal. ring.
    + intros Hodd. split; [lia |].
      replace (Z.of_nat (S k) - 1) with (Z.of_nat k) by lia.
      now rewrite <- Hm.
Qed.

Lemma odd_div_mod (M k : Z) :
  0 <= M -> 0 < k ->
  Z.odd (M / 2 ^ (k - 1)) = true -> 2 ^ (k - 1) <= M mod 2 ^ k.
Proof.
  intros HM Hk Hodd.
  assert (0 < 2 ^ (k - 1)) as Hp by (apply Z.pow_pos_nonneg; lia).
  assert (2 ^ k = 2 * 2 ^ (k - 1)) as Hk2.
  { replace k with (Z.succ (k - 1)) at 1 by lia.
    rewrite Z.pow_succ_r by lia. reflexivity. }
  pose proof (Z.div_mod M (2 ^ (k - 1)) ltac:(lia)) as Hdm.
  pose proof (Z.mod_pos_bound M (2 ^ (k - 1)) Hp) as Hb.
  rewrite (Zodd_div2 (M / 2 ^ (k - 1))) in Hdm
    by (apply Zodd_bool_iff; exact Hodd).
  rewrite <- (Z.mod_unique M (2 ^ k) (Z.div2 (M / 2 ^ (k - 1)))
             (2 ^ (k - 1) + M mod 2 ^ (k - 1))).
  - lia.
  - left. lia.
  - rewrite Hk2. lia.
Qed.

Lemma shr_nonneg (M e n : Z) :
  0 <= M ->
  (n <= 0 ->
   shr (Build_shr_record M false false) e n
   = (Build_shr_record M false false, e))
  /\ (0 < n ->
      exists mrs,
        shr (Build_shr_record M false false) e n = (mrs, e + n)
        /\ shr_m mrs = M / 2 ^ n
        /\ (shr_r mrs = true -> 2 ^ (n - 1) <= M mod 2 ^ n)).
Proof.
  intros HM. split; intros Hn.
  - destruct n; [reflexivity | lia | reflexivity].
  - destruct n as [|p|p]; try lia. unfold shr.
    eexists. split; [reflexivity |].
    rewrite iter_pos_nat.
    destruct (shr_steps M (Pos.to_nat p) HM) as [Hm Hr].
    rewrite positive_nat_Z in Hm, Hr. split; [exact Hm |].
    intros Hrt. apply odd_div_mod; [lia | lia | now apply Hr].
Qed.

Lemma round_nearest_even_bounds (mrs : shr_record) :
  let m' := round_nearest_even (shr_m mrs) (loc_of_shr_record mrs) in
  shr_m mrs <= m' <= shr_m mrs + 1 /\ (m' <> shr_m mrs -> shr_r mrs = true).
Proof.
  destruct mrs as [m [|] [|]]; simpl; try (split; [lia | congruence]).
  destruct (Z.even m); split; (lia || congruence).
Qed.

Lemma pow2_split (s : Z) : 1 <= s -> 2 ^ s = 2 * 2 ^ (s - 1).
Proof.
  intros Hs. replace s with (Z.succ (s - 1)) at 1 by lia.
  now rewrite Z.pow_succ_r by lia.
Qed.

Lemma second_shift (M1 e1 : Z) :
  0 <= M1 ->
  exists W g,
    e1 <= g /\ 0 <= W /\ W * 2 ^ (g - e1) <= M1
    /\ (let '(mrs, e') := shr_fexp 53 1024 M1 e1 loc_Exact in
        match shr_m mrs with
        | Z0 => S754_zero false
        | Zpos m =>
            if e' <=? 1024 - 53 then S754_finite false m e'
            else S754_infinity false
        | Zneg _ => S754_nan
        end) = rounded_number W g.
Proof.
  intros HM1. unfold shr_fexp.
  set (n := fexp 53 1024 (Zdigits2 M1 + e1) - e1).
  change (shr_record_of_loc M1 loc_Exact)
    with (Build_shr_record M1 false false).
  destruct (shr_nonneg M1 e1 n HM1) as [Hle Hgt].
  destruct (Z_le_gt_dec n 0) as [Hn | Hn].
  - rewrite Hle by exact Hn. exists M1, e1.
    rewrite Z.sub_diag, Z.mul_1_r. cbn [shr_m].
    repeat split; try lia.
  - destruct Hgt as (mrs & -> & Hm & _); [lia |].
    exists (shr_m mrs), (e1 + n). rewrite Hm.
    assert (0 < 2 ^ n) as Hp by (apply Z.pow_pos_nonneg; lia).
    repeat split; try lia.
    + apply Z.div_pos; lia.
    + replace (e1 + n - e1) with n by lia.
      rewrite Z.mul_comm. apply Z.mul_div_le. exact Hp.
Qed.

Lemma binary_round_aux_bound (M : positive) (E : Z) :
  exists W g,
    E <= g /\ 0 <= W
    /\ binary_round_aux 53 1024 false (Zpos M) E loc_Exact = rounded_number W g
    /\ (W * 2 ^ (g - E) <= Zpos M
        \/ exists s,
             1 <= s
             /\ s = Z.max (Zpos (digits2_pos M) - 53) (-1074 - E)
             /\ W * 2 ^ (g - E) <= Zpos M + 2 ^ (s - 1)).
Proof.
  unfold binary_round_aux.
  unfold shr_fexp at 1.
  change (Zdigits2 (Zpos M)) with (Zpos (digits2_pos M)).
  change (shr_record_of_loc (Zpos M) loc_Exact)
    with (Build_shr_record (Zpos M) false false).
  set (s := fexp 53 1024 (Zpos (digits2_pos M) + E) - E).
  assert (s = Z.max (Zpos (digits2_pos M) - 53) (-1074 - E)) as Hs.
  { unfold s, fexp. change (emin 53 1024) with (-1074). lia. }
  destruct (shr_nonneg (Zpos M) E s ltac:(lia)) as [Hle Hgt].
  destruct (Z_le_gt_dec s 0) as [Hn | Hn].
  - rewrite Hle by exact Hn. cbn [shr_m loc_of_shr_record round_nearest_even].
    destruct (second_shift (Zpos M) E ltac:(lia))
      as (W & g & Hg & HW & Hval & Heq).
    exists W, g. split; [exact Hg |]. split; [exact HW |]. split.
    + destruct (shr_fexp 53 1024 (Zpos M) E loc_Exact). exact Heq.
    + now left.
  - destruct Hgt as (mrs & -> & Hm & Hr); [lia |].
    set (M1 := round_nearest_even (shr_m mrs) (loc_of_shr_record mrs)).
    destruct (round_nearest_even_bounds mrs) as [HM1 Hup].
    fold M1 in HM1, Hup.
    assert (0 < 2 ^ s) as Hp by (apply Z.pow_pos_nonneg; lia).
    assert (0 <= shr_m mrs) as Hm0.
    { rewrite Hm. apply Z.div_pos; lia. }
    destruct (second_shift M1 (E + s) ltac:(lia))
      as (W & g & Hg & HW & Hval & Heq).
    exists W, g. split; [lia |]. split; [exact HW |]. split.
    + destruct (shr_fexp 53 1024 M1 (E + s) loc_Exact). exact Heq.
    + assert (W * 2 ^ (g - E) <= M1 * 2 ^ s) as Hscaled.
      { replace (g - E) with ((g - (E + s)) + s) by lia.
        rewrite Z.pow_add_r by lia. nia. }
      pose proof (Z.div_mod (Zpos M) (2 ^ s) ltac:(lia)) as Hdm.
      pose proof (Z.mod_pos_bound (Zpos M) (2 ^ s) Hp) as Hmod.
      destruct (Z.eq_dec M1 (shr_m mrs)) as [Heq1 | Hne1].
      * left. rewrite Heq1, Hm in Hscaled. nia.
      * right. exists s. split; [lia |]. split; [exact Hs |].
        specialize (Hr (Hup Hne1)).
        assert (M1 = Zpos M / 2 ^ s + 1) as -> by lia.
        rewrite (pow2_split s) in * by lia. nia.
Qed.

Lemma digits2_pos_shift (p k : positive) :
  digits2_pos (Pos.iter xO p k) = (digits2_pos p + k)%positive.
Proof.
  induction k as [|k IH] using Pos.peano_ind.
  - simpl. lia.
  - rewrite Pos.iter_succ. simpl. rewrite IH. lia.
Qed.

Lemma shift_value (p k : positive) :
  Zpos (Pos.iter xO p k) = Zpos p * 2 ^ Zpos k.
Proof.
  induction k as [|k IH] using Pos.peano_ind.
  - simpl. lia.
  - rewrite Pos.iter_succ, Pos2Z.inj_succ, Z.pow_succ_r by lia.
    change (Zpos (Pos.iter xO p k)~0) with (2 * Zpos (Pos.iter xO p k)).
    rewrite IH. ring.
Qed.

Lemma binary_round_aux_exact (M : positive) (E : Z) :
  Zpos (digits2_pos M) = 53 -> -1074 <= E <= 971 ->
  binary_round_aux 53 1024 false (Zpos M) E loc_Exact = S754_finite false M E.
Proof.
  intros HD HE. unfold binary_round_aux, shr_fexp.
  change (Zdigits2 (Zpos M)) with (Zpos (digits2_pos M)).
  change (shr_record_of_loc (Zpos M) loc_Exact)
    with (Build_shr_record (Zpos M) false false).
  assert (fexp 53 1024 (Zpos (digits2_pos M) + E) - E = 0) as ->.
  { unfold fexp. change (emin 53 1024) with (-1074). lia. }
  cbn [shr shr_m loc_of_shr_record round_nearest_even
       shr_record_of_loc Zdigits2].
  assert (fexp 53 1024 (Zpos (digits2_pos M) + E) - E = 0) as ->.
  { unfold fexp. change (emin 53 1024) with (-1074). lia. }
  cbn [shr shr_m].
  destruct (Z.leb_spec E (1024 - 53)); [reflexivity | lia].
Qed.

(** The Number of a length below 2^53 is that integer. *)
Lemma number_of_length_exact (len : nat) :
  0 < Z.of_nat len < 2 ^ 53 ->
  exists my ey,
    number_of_length len = S754_finite false my ey
    /\ -52 <= ey <= 0
    /\ Zpos my = Z.of_nat len * 2 ^ (- ey).
Proof.
  intros [Hpos Hlt]. unfold number_of_length, binary_normalize.
  destruct (Z.of_nat len) as [|p|p] eqn:Hn; try lia.
  unfold binary_round.
  pose proof (digits2_pos_bounds p) as [Hlo Hhi].
  assert (Zpos (digits2_pos p) <= 53) as Hd.
  { destruct (Z_le_gt_dec (Zpos (digits2_pos p)) 53) as [|Hgt]; [assumption |].
    assert (2 ^ 53 <= 2 ^ (Zpos (digits2_pos p) - 1))
      by (apply Z.pow_le_mono_r; lia).
    lia. }
  unfold shl_align.
  assert (fexp 53 1024 (Zpos (digits2_pos p) + 0) = Zpos (digits2_pos p) - 53)
    as ->.
  { unfold fexp. change (emin 53 1024) with (-1074). lia. }
  rewrite Z.sub_0_r.
  destruct (Zpos (digits2_pos p) - 53) as [|k|k] eqn:Hk; try lia.
  - rewrite binary_round_aux_exact by lia.
    exists p, 0. repeat split; lia.
  - rewrite binary_round_aux_exact.
    + exists (Pos.iter xO p k), (Zneg k). split; [reflexivity |].
      split; [lia |]. rewrite shift_value. reflexivity.
    + rewrite digits2_pos_shift. lia.
    + lia.
Qed.

Lemma SFone_value :
  SFone 53 1024 = S754_finite false 4503599627370496 (-52).
Proof. reflexivity. Qed.

(** A Number that [Math.random()] can return is zero, or [m * 2^e] with
    [m] below 2^53 and [e] between -1074 and -53. *)
Lemma is_random_number_cases (x : spec_float) :
  is_random_number x = true ->
  (exists s, x = S754_zero s)
  \/ exists m e,
       x = S754_finite false m e
       /\ Zpos m < 2 ^ 53 /\ -1074 <= e <= -53.
Proof.
  unfold is_random_number. rewrite !andb_true_iff.
  intros [[Hvalid Hle] Hlt].
  destruct x as [s | s | | s m e]; try discriminate.
  - left. now exists s.
  - destruct s; [discriminate Hle | vm_compute in Hlt; discriminate Hlt].
  - destruct s; try discriminate Hle.
    right. exists m, e. split; [reflexivity |].
    simpl in Hvalid. unfold bounded, canonical_mantissa in Hvalid.
    apply andb_true_iff in Hvalid as [Hcanon _].
    apply Z.eqb_eq in Hcanon. unfold fexp in Hcanon.
    change (emin 53 1024) with (-1074) in Hcanon.
    pose proof (digits2_pos_bounds m) as [Hlo Hhi].
    assert (Zpos (digits2_pos m) <= 53) as Hd by lia.
    assert (Zpos m < 2 ^ 53) as Hm.
    { eapply Z.lt_le_trans; [exact Hhi |].
      apply Z.pow_le_mono_r; lia. }
    split; [exact Hm |]. split; [lia |].
    rewrite SFone_value in Hlt. unfold SFltb, SFcompare in Hlt.
    destruct (Z.compare_spec e (-52)) as [-> | He | He];
      [| lia | discriminate Hlt].
    assert (Zpos (digits2_pos m) = 53) as Hd53 by lia.
    rewrite Hd53 in Hlo.
    destruct (Pos.compare_cont Eq m 4503599627370496) eqn:Hc;
      try discriminate Hlt.
    apply (proj1 (Pos.compare_lt_iff m 4503599627370496)) in Hc.
    change (2 ^ (53 - 1)) with 4503599627370496 in Hlo.
    apply Pos2Z.pos_lt_pos in Hc. clear - Hlo Hc. lia.
Qed.

Lemma floor_outcome_lt (W g E n : Z) :
  0 <= W -> E <= g -> E <= 0 -> 0 < n < 2 ^ 53 ->
  W * 2 ^ (g - E) < n * 2 ^ (- E) ->
  exists k, floor_number (rounded_number W g) = Some k /\ 0 <= k < n.
Proof.
  intros HW Hg HE Hn Hlt.
  assert (0 < 2 ^ (g - E)) as HP by (apply Z.pow_pos_nonneg; lia).
  assert (0 < 2 ^ (- E)) as HQ by (apply Z.pow_pos_nonneg; lia).
  destruct W as [|w|w]; [| | lia].
  - exists 0. split; [reflexivity | lia].
  - assert (g < 53) as Hg53.
    { destruct (Z_lt_ge_dec g 53) as [|Hge]; [assumption | exfalso].
      assert (2 ^ (53 - E) <= 2 ^ (g - E)) by (apply Z.pow_le_mono_r; lia).
      replace (53 - E) with (53 + - E) in * by lia.
      rewrite Z.pow_add_r in * by lia. nia. }
    unfold rounded_number.
    destruct (Z.leb_spec g 971) as [_ | ?]; [| lia].
    cbn [floor_number]. eexists. split; [reflexivity |].
    destruct (Z.leb_spec 0 g) as [Hg0 | Hg0].
    + assert (0 < 2 ^ g) by (apply Z.pow_pos_nonneg; lia).
      replace (g - E) with (g + - E) in Hlt by lia.
      rewrite Z.pow_add_r in Hlt by lia. split; nia.
    + assert (0 < 2 ^ (- g)) as HG by (apply Z.pow_pos_nonneg; lia).
      split; [apply Z.div_pos; lia |].
      apply Z.div_lt_upper_bound; [exact HG |].
      replace (- E) with (- g + (g - E)) in Hlt by lia.
      rewrite Z.pow_add_r in Hlt by lia. nia.
Qed.

Lemma binary64_index_in_range (x : spec_float) (len : nat) :
  is_random_number x = true ->
  0 < Z.of_nat len < 2 ^ 53 ->
  exists k, binary64Index x len = Some k /\ 0 <= k < Z.of_nat len.
Proof.
  intros Hx Hlen. unfold binary64Index.
  destruct (number_of_length_exact len Hlen) as (my & ey & -> & Hey & Hmy).
  set (n := Z.of_nat len) in *.
  destruct (is_random_number_cases x Hx)
    as [[s ->] | (m & e & -> & Hm & He)].
  - exists 0. split; [reflexivity | lia].
  - cbn [SFmul xorb].
    destruct (binary_round_aux_bound (m * my) (e + ey))
      as (W & g & Hg & HW & -> & Hval).
    apply (floor_outcome_lt W g (e + ey) n); try lia.
    assert (0 < 2 ^ (- ey)) as HU by (apply Z.pow_pos_nonneg; lia).
    assert (2 ^ 53 <= 2 ^ (- e)) as HT by (apply Z.pow_le_mono_r; lia).
    replace (- (e + ey)) with (- e + - ey) by lia.
    rewrite Z.pow_add_r by lia.
    rewrite Pos2Z.inj_mul, Hmy in Hval.
    destruct Hval as [Hval | (s & Hs1 & Hs & Hval)]; [nia |].
    assert (2 ^ (s - 1) < n * 2 ^ (- ey)) as Hhalf.
    { destruct (Z.max_spec (Zpos (digits2_pos (m * my)) - 53)
                  (-1074 - (e + ey))) as [[_ Hmax] | [_ Hmax]];
        rewrite Hmax in Hs.
      - assert (2 ^ (s - 1) < 2 ^ (- ey))
          by (apply Z.pow_lt_mono_r; lia).
        nia.
      - pose proof (digits2_pos_bounds (m * my)) as [Hlo _].
        replace (Zpos (digits2_pos (m * my)) - 1) with ((s - 1) + 53)
          in Hlo by lia.
        rewrite Z.pow_add_r, Pos2Z.inj_mul, Hmy in Hlo by lia.
        assert (0 < 2 ^ (s - 1)) by (apply Z.pow_pos_nonneg; lia).
        nia. }
    nia.
Qed.

End Binary64.

(** The rounding can change the index: the exact product of
    [two_thirds_number] and 3 is below 2, the binary64 product is 2. *)
Example binary64_rounds_up :
  binary64Index two_thirds_number 3 = Some 2%Z
  ∧ (6004799503160661 * 3 / 2 ^ 53 = 1)%Z.
Proof. split; reflexivity. Qed.

(** Every index in range is read by the exact computation for some
    draw. *)
Lemma exact_index_reaches (k : Z) (len : nat) :
  (0 ≤ k < Z.of_nat len)%Z → ∃ r : Random, randomIndex r len = k.
Proof.
  intros [Hlo Hhi].
  assert (Zpos (Pos.of_nat len) = Z.of_nat len) as Hp.
  { rewrite <- positive_nat_Z, Nat2Pos.id by lia. reflexivity. }
  assert ((0 <= k # Pos.of_nat len)%Q ∧ (k # Pos.of_nat len < 1)%Q)
    as Hrange.
  { unfold Qle, Qlt. simpl. rewrite Hp. lia. }
  exists {| value := k # Pos.of_nat len; value_range := Hrange |}.
  unfold randomIndex, Qfloor, Qmult, inject_Z. simpl.
  rewrite Pos.mul_1_r, Hp. apply Z.div_mul. lia.
Qed.

(** ** The nested loops *)

Lemma for_of_app {A S : Type} (xs ys : list A) (body : A → S → option S)
    (st : S) :
  for_of (xs ++ ys) body st =
  match for_of xs body st with
  | Some st' => for_of ys body st'
  | None => None
  end.
Proof.
  revert st. induction xs as [|x xs IH]; intros st; simpl; [done |].
  destruct (body x st); [apply IH | done].
Qed.

Lemma for_of_map {A B S : Type} (f : A → B) (xs : list A)
    (body : B → S → option S) (st : S) :
  for_of (map f xs) body st = for_of xs (λ x, body (f x)) st.
Proof.
  revert st. induction xs as [|x xs IH]; intros st; simpl; [done |].
  destruct (body (f x) st); [apply IH | done].
Qed.

Lemma for_of_nested {A B S : Type} (xs : list A) (inner : A → list B)
    (body : A → B → S → option S) (st : S) :
  for_of xs (λ x st', for_of (inner x) (body x) st') st =
  for_of (flat_map (λ x, map (pair x) (inner x)) xs)
    (λ p st', body p.1 p.2 st') st.
Proof.
  revert st. induction xs as [|x xs IH]; intros st; simpl; [done |].
  rewrite for_of_app, for_of_map. simpl.
  destruct (for_of (inner x) (body x) st); [apply IH | done].
Qed.

(** ** One iteration of the inner loop *)

Section SlotBody.

Variable volunteers : list Volunteer.
Variable lastWeekData : list ScheduleAssignment.
Variable currentWeekStart : string.
Variable random : nat → Random.

#[local] Abbreviation strict := (strictCandidates volunteers lastWeekData).
#[local] Abbreviation relaxed := (relaxedCandidates volunteers).
#[local] Abbreviation body :=
  (slotBody volunteers lastWeekData currentWeekStart random).
#[local] Abbreviation runSlots' :=
  (runSlots volunteers lastWeekData currentWeekStart random).
#[local] Abbreviation slot_outcome' :=
  (slot_outcome volunteers lastWeekData currentWeekStart).
#[local] Abbreviation slots_outcome' :=
  (slots_outcome volunteers lastWeekData currentWeekStart).

Lemma slotBody_outcome st service role :
  ∃ st', body service role st = Some st'
         ∧ slot_outcome' st service role st'.
Proof.
  unfold slotBody.
  destruct (strict st service role) as [|c cs] eqn:Hstrict.
  - rewrite bool_decide_true by reflexivity.
    destruct (relaxed st service role) as [|d ds] eqn:Hrelaxed.
    + rewrite bool_decide_false by (simpl; lia).
      rewrite bool_decide_false by (simpl; lia).
      eexists. split; [reflexivity |].
      apply outcome_vacant; assumption.
    + rewrite bool_decide_true by (simpl; lia).
      rewrite bool_decide_true by (simpl; lia).
      destruct (random_pick (random (randomCalls st)) (d :: ds))
        as (x & Hx & Hin); [simpl; lia |].
      rewrite Hx. eexists. split; [reflexivity |].
      apply outcome_relaxed; [assumption | by rewrite Hrelaxed].
  - rewrite bool_decide_false by (simpl; lia).
    rewrite bool_decide_true by (simpl; lia).
    destruct (random_pick (random (randomCalls st)) (c :: cs))
      as (x & Hx & Hin); [simpl; lia |].
    rewrite Hx. eexists. split; [reflexivity |].
    apply outcome_strict. by rewrite Hstrict.
Qed.

Lemma runSlots_outcome slots : ∀ st,
  ∃ st', runSlots' slots st = Some st' ∧ slots_outcome' slots st st'.
Proof.
  induction slots as [|[service role] slots IH]; intros st.
  - exists st. split; [reflexivity | constructor].
  - destruct (slotBody_outcome st service role) as (st1 & Hbody & Hout).
    destruct (IH st1) as (st2 & Hrun & Houts).
    exists st2. split.
    + unfold runSlots in *. simpl. rewrite Hbody. exact Hrun.
    + econstructor; eassumption.
Qed.

Lemma slots_outcome_invariant (P : LoopState → Prop) :
  (∀ st service role st',
     P st → slot_outcome' st service role st' → P st') →
  ∀ slots st st', slots_outcome' slots st st' → P st → P st'.
Proof.
  intros Hstep slots st st' Hrun.
  induction Hrun as [|service role slots st st1 st2 Hout _ IH]; [done |].
  intros HP. apply IH. eapply Hstep; eassumption.
Qed.

End SlotBody.

Lemma generateSchedule_runSlots volunteers lastWeekData week random :
  generateSchedule volunteers lastWeekData week random =
  match
    runSlots volunteers lastWeekData week random visitedSlots initialState
  with
  | Some st => Some (assignments st, warnings st)
  | None => None
  end.
Proof.
  unfold generateSchedule, runSlots, visitedSlots.
  by rewrite for_of_nested.
Qed.

(** The schedule is always produced, and it is the end of a chain of
    slot outcomes over the visited slots. *)
Lemma generateSchedule_outcome volunteers lastWeekData week random :
  ∃ st,
    generateSchedule volunteers lastWeekData week random
      = Some (assignments st, warnings st)
    ∧ slots_outcome volunteers lastWeekData week visitedSlots
        initialState st.
Proof.
  destruct (runSlots_outcome volunteers lastWeekData week random
              visitedSlots initialState) as (st & Hrun & Hout).
  exists st. split; [| exact Hout].
  by rewrite generateSchedule_runSlots, Hrun.
Qed.

(** ** The two filters *)

Lemma weeklyLimit_test used role vid :
  (if bool_decide (0 < size (rolesUsedOf used vid))%nat then
     if negb (bool_decide (role = Coordinacion)
              || bool_decide (Coordinacion ∈ rolesUsedOf used vid))
     then false else true
   else true) = true
  ↔ weeklyLimitAllows used role vid.
Proof.
  unfold weeklyLimitAllows.
  case_bool_decide as Hsize.
  - assert (rolesUsedOf used vid ≠ ∅) as Hne.
    { intros Heq. rewrite Heq, size_empty in Hsize. lia. }
    destruct (bool_decide (role = Coordinacion)) eqn:Hrole;
      destruct (bool_decide (Coordinacion ∈ rolesUsedOf used vid)) eqn:Hc;
      simpl;
      try apply bool_decide_eq_true in Hrole;
      try apply bool_decide_eq_true in Hc;
      try apply bool_decide_eq_false in Hrole;
      try apply bool_decide_eq_false in Hc;
      naive_solver.
  - split; [intros _ | done]. left.
    apply leibniz_equiv, size_empty_iff. lia.
Qed.

Lemma strictFilter_true lastWeek used service role v :
  strictFilter lastWeek used service role v = true
  ↔ service ∈ availability v
    ∧ role ∈ functions v
    ∧ (Some (id v) ∉ lastWeek)
    ∧ weeklyLimitAllows used role (id v).
Proof.
  unfold strictFilter.
  case_bool_decide as Hav; simpl; [| naive_solver].
  case_bool_decide as Hfn; simpl; [| naive_solver].
  case_bool_decide as Hlw; simpl; [naive_solver |].
  rewrite weeklyLimit_test. naive_solver.
Qed.

Lemma relaxedFilter_true used service role v :
  relaxedFilter used service role v = true
  ↔ service ∈ availability v ∧ weeklyLimitAllows used role (id v).
Proof.
  unfold relaxedFilter.
  case_bool_decide as Hav; simpl; [| naive_solver].
  rewrite weeklyLimit_test. naive_solver.
Qed.

Lemma elem_of_strictCandidates volunteers lastWeekData st service role v :
  v ∈ strictCandidates volunteers lastWeekData st service role
  ↔ v ∈ volunteers
    ∧ service ∈ availability v
    ∧ role ∈ functions v
    ∧ (Some (id v) ∉ lastWeekVolunteers lastWeekData)
    ∧ weeklyLimitAllows (usedThisWeek st) role (id v).
Proof.
  unfold strictCandidates.
  rewrite list_elem_of_In, filter_In, <- list_elem_of_In.
  by rewrite strictFilter_true.
Qed.

Lemma elem_of_relaxedCandidates volunteers st service role v :
  v ∈ relaxedCandidates volunteers st service role
  ↔ v ∈ volunteers
    ∧ service ∈ availability v
    ∧ weeklyLimitAllows (usedThisWeek st) role (id v).
Proof.
  unfold relaxedCandidates.
  rewrite list_elem_of_In, filter_In, <- list_elem_of_In.
  by rewrite relaxedFilter_true.
Qed.

(** [lastWeekVolunteers] holds the ids of last week's rows. *)
Lemma elem_of_lastWeekVolunteers lastWeekData (i : Z) :
  Some i ∈ lastWeekVolunteers lastWeekData
  ↔ ∃ a, a ∈ lastWeekData ∧ volunteer_id a = Some i.
Proof.
  unfold lastWeekVolunteers.
  rewrite elem_of_list_to_set, list_elem_of_fmap. naive_solver.
Qed.

(** ** The warning strings *)

Lemma vacancyWarning_inj role service role' service' :
  vacancyWarning role service = vacancyWarning role' service' →
  role = role' ∧ service = service'.
Proof.
  intros H. apply String.eqb_eq in H. revert H.
  destruct role, service, role', service'; vm_compute;
    intros H; first [discriminate H | split; reflexivity].
Qed.

Lemma relaxedWarning_inj role service role' service' :
  relaxedWarning role service = relaxedWarning role' service' →
  role = role' ∧ service = service'.
Proof.
  intros H. apply String.eqb_eq in H. revert H.
  destruct role, service, role', service'; vm_compute;
    intros H; first [discriminate H | split; reflexivity].
Qed.

Lemma vacancyWarning_not_relaxed role service role' service' :
  vacancyWarning role service ≠ relaxedWarning role' service'.
Proof. unfold vacancyWarning, relaxedWarning. simpl. discriminate. Qed.

(** ** Invariants of the loop *)

Lemma elem_of_snoc {A : Type} (l : list A) (x y : A) :
  y ∈ l ++ [x] ↔ y ∈ l ∨ y = x.
Proof. rewrite elem_of_app, list_elem_of_singleton. done. Qed.

Section InvariantSteps.

Variable volunteers : list Volunteer.
Variable lastWeekData : list ScheduleAssignment.
Variable currentWeekStart : string.

#[local] Abbreviation outcome :=
  (slot_outcome volunteers lastWeekData currentWeekStart).
#[local] Abbreviation outcomes :=
  (slots_outcome volunteers lastWeekData currentWeekStart).
#[local] Abbreviation loop_inv' := (loop_inv volunteers lastWeekData).

Lemma available_inv_step st service role st' :
  available_inv volunteers st → outcome st service role st' →
  available_inv volunteers st'.
Proof.
  intros Hinv Hout a i Ha Hid.
  destruct Hout as [sel Hsel | sel _ Hsel | _ _]; simpl in Ha;
    apply elem_of_snoc in Ha as [Ha | ->];
    try (by eapply Hinv); simpl in Hid.
  - apply elem_of_strictCandidates in Hsel. naive_solver.
  - apply elem_of_relaxedCandidates in Hsel. naive_solver.
Qed.

Lemma preferred_inv_step st service role st' :
  preferred_inv volunteers lastWeekData st → outcome st service role st' →
  preferred_inv volunteers lastWeekData st'.
Proof.
  intros Hinv Hout a i Ha Hid.
  destruct Hout as [sel Hsel | sel _ Hsel | _ _]; simpl in Ha |- *;
    apply elem_of_snoc in Ha as [Ha | ->].
  - by eapply Hinv.
  - left. apply elem_of_strictCandidates in Hsel. simpl in *.
    naive_solver.
  - destruct (Hinv a i Ha Hid) as [? | ?]; [by left | right].
    apply elem_of_app. by left.
  - right. simpl. apply elem_of_snoc. by right.
  - destruct (Hinv a i Ha Hid) as [? | ?]; [by left | right].
    apply elem_of_app. by left.
  - done.
Qed.

Lemma vacancy_inv_step st service role st' :
  vacancy_inv st → outcome st service role st' → vacancy_inv st'.
Proof.
  intros Hinv Hout s r. specialize (Hinv s r).
  destruct Hout as [sel Hsel | sel _ Hsel | _ _]; simpl.
  - rewrite <- Hinv. split; intros (a & Ha & Hslot & Hid).
    + apply elem_of_snoc in Ha as [Ha | ->]; [eauto | done].
    + exists a. rewrite elem_of_snoc. eauto.
  - rewrite elem_of_snoc, <- Hinv. split.
    + intros (a & Ha & Hslot & Hid).
      apply elem_of_snoc in Ha as [Ha | ->]; [eauto | done].
    + intros [(a & Ha & Hslot & Hid) | Heq].
      * exists a. rewrite elem_of_snoc. eauto.
      * by apply vacancyWarning_not_relaxed in Heq.
  - rewrite elem_of_snoc, <- Hinv. split.
    + intros (a & Ha & Hslot & Hid).
      apply elem_of_snoc in Ha as [Ha | ->]; [eauto |].
      right. unfold slot_of in Hslot. simpl in Hslot. congruence.
    + intros [(a & Ha & Hslot & Hid) | Heq].
      * exists a. rewrite elem_of_snoc. eauto.
      * apply vacancyWarning_inj in Heq as [-> ->].
        eexists. rewrite elem_of_snoc. split; [by right | done].
Qed.

Lemma rolesUsedOf_insert used i roles j :
  rolesUsedOf (<[i := roles]> used) j =
  if decide (i = j) then roles else rolesUsedOf used j.
Proof.
  unfold rolesUsedOf. rewrite lookup_insert.
  by destruct (decide (i = j)).
Qed.

Lemma used_inv_step st service role st' :
  used_inv st → outcome st service role st' → used_inv st'.
Proof.
  intros Hinv Hout i r. unfold used_inv in Hinv.
  assert (Hassigned : ∀ sel warns,
    r ∈ rolesUsedOf
          (usedThisWeek
             (assignedState currentWeekStart st service role sel warns)) i
    ↔ ∃ a, a ∈ assignments
                 (assignedState currentWeekStart st service role sel warns)
           ∧ volunteer_id a = Some i ∧ function_name a = r).
  { intros sel warns. simpl. rewrite rolesUsedOf_insert.
    destruct (decide (id sel = i)) as [<- | Hne].
    - rewrite elem_of_union, elem_of_singleton, Hinv. split.
      + intros [-> | (a & Ha & Hid & Hr)].
        * eexists. rewrite elem_of_snoc. split; [by right | done].
        * exists a. rewrite elem_of_snoc. eauto.
      + intros (a & Ha & Hid & Hr).
        apply elem_of_snoc in Ha as [Ha | ->]; [right; eauto |].
        left. by simpl in Hr.
    - rewrite Hinv. split; intros (a & Ha & Hid & Hr).
      + exists a. rewrite elem_of_snoc. eauto.
      + apply elem_of_snoc in Ha as [Ha | ->]; [eauto |].
        simpl in Hid. congruence. }
  destruct Hout as [sel Hsel | sel _ Hsel | _ _];
    [apply Hassigned | apply Hassigned |].
  simpl. rewrite Hinv. split; intros (a & Ha & Hid & Hr).
  - exists a. rewrite elem_of_snoc. eauto.
  - apply elem_of_snoc in Ha as [Ha | ->]; [eauto | done].
Qed.

Lemma coordination_inv_old st new :
  coordination_inv st →
  ∀ j k a b i,
    (k < j)%nat → (j < length (assignments st))%nat →
    (assignments st ++ [new]) !! j = Some a → volunteer_id a = Some i →
    (assignments st ++ [new]) !! k = Some b → volunteer_id b = Some i →
    function_name a = Coordinacion
    ∨ ∃ m c, (m < j)%nat ∧ (assignments st ++ [new]) !! m = Some c
             ∧ volunteer_id c = Some i
             ∧ function_name c = Coordinacion.
Proof.
  intros Hinv j k a b i Hkj Hj Ha Hai Hb Hbi.
  rewrite lookup_app_l in Ha by lia.
  rewrite lookup_app_l in Hb by lia.
  destruct (Hinv j k a b i Hkj Ha Hai Hb Hbi)
    as [? | (m & c & Hm & Hc & ? & ?)]; [by left | right].
  exists m, c. by rewrite lookup_app_l by lia.
Qed.

Lemma coordination_inv_step st service role st' :
  used_inv st → coordination_inv st →
  outcome st service role st' → coordination_inv st'.
Proof.
  intros Hused Hinv Hout.
  assert (Hassigned : ∀ sel warns,
    weeklyLimitAllows (usedThisWeek st) role (id sel) →
    coordination_inv
      (assignedState currentWeekStart st service role sel warns)).
  { intros sel warns Hlimit j k a b i Hkj Ha Hai Hb Hbi. simpl in *.
    apply lookup_snoc_Some in Ha as Ha'.
    destruct Ha' as [[Hj _] | [-> <-]];
      [by eapply coordination_inv_old |].
    simpl in Hai. injection Hai as <-.
    rewrite lookup_app_l in Hb by lia.
    assert (function_name b ∈ rolesUsedOf (usedThisWeek st) (id sel))
      as Hrole.
    { apply Hused. exists b. split; [| done].
      apply list_elem_of_lookup. eauto. }
    destruct Hlimit as [Hempty | [-> | Hcoord]]; [| by left |].
    - rewrite Hempty in Hrole. set_solver.
    - right. apply Hused in Hcoord as (c & Hc & Hci & Hcr).
      apply list_elem_of_lookup in Hc as [m Hm].
      exists m, c. split; [by eapply lookup_lt_Some |].
      by rewrite (lookup_app_l_Some _ _ _ _ Hm). }
  destruct Hout as [sel Hsel | sel _ Hsel | _ _].
  - apply Hassigned.
    apply elem_of_strictCandidates in Hsel. naive_solver.
  - apply Hassigned.
    apply elem_of_relaxedCandidates in Hsel. naive_solver.
  - intros j k a b i Hkj Ha Hai Hb Hbi. simpl in *.
    apply lookup_snoc_Some in Ha as Ha'.
    destruct Ha' as [[Hj _] | [-> <-]];
      [by eapply coordination_inv_old | done].
Qed.

(** ** The state after the loops *)

Lemma loop_inv_initial : loop_inv' initialState.
Proof.
  split; [| split; [| split; [| split]]].
  - intros a i Ha. by apply elem_of_nil in Ha.
  - intros a i Ha. by apply elem_of_nil in Ha.
  - intros service role. simpl. split.
    + intros (a & Ha & _). by apply elem_of_nil in Ha.
    + intros Hw. by apply elem_of_nil in Hw.
  - intros i role. unfold rolesUsedOf. simpl. rewrite lookup_empty. split.
    + intros Hrole. by apply not_elem_of_empty in Hrole.
    + intros (a & Ha & _). by apply elem_of_nil in Ha.
  - intros j k a b i _ Ha. simpl in Ha. by rewrite lookup_nil in Ha.
Qed.

Lemma loop_inv_final slots st :
  outcomes slots initialState st → loop_inv' st.
Proof.
  intros Hrun.
  eapply (slots_outcome_invariant _ _ _ loop_inv'); [| exact Hrun |].
  - clear. intros st service role st' Hinv Hout.
    destruct Hinv as (Hav & Hpref & Hvac & Hused & Hco).
    split; [| split; [| split; [| split]]].
    + by eapply available_inv_step.
    + by eapply preferred_inv_step.
    + by eapply vacancy_inv_step.
    + by eapply used_inv_step.
    + by eapply coordination_inv_step.
  - apply loop_inv_initial.
Qed.

(** One assignment per visited slot, in the order of the visit, all
    for the current week. *)
Lemma slots_outcome_assignments slots st st' :
  outcomes slots st st' →
  ∃ vids,
    length vids = length slots
    ∧ assignments st' =
      assignments st
        ++ zip_with
             (λ slot vid, newAssignment currentWeekStart slot.1 slot.2 vid)
             slots vids.
Proof.
  induction 1 as [st | service role slots st st1 st2 Hout _ IH].
  - exists []. by rewrite app_nil_r.
  - destruct IH as (vids & Hlen & ->).
    destruct Hout as [sel _ | sel _ _ | _ _]; simpl;
      [exists (Some (id sel) :: vids) | exists (Some (id sel) :: vids)
      | exists (None :: vids)];
      simpl; rewrite Hlen, <- app_assoc; done.
Qed.

End InvariantSteps.

(** ** The three ways through the loop body, as equations *)

Section SlotBodyCases.

Variable volunteers : list Volunteer.
Variable lastWeekData : list ScheduleAssignment.
Variable week : string.
Variable random : nat → Random.

#[local] Abbreviation strict' := (strictCandidates volunteers lastWeekData).
#[local] Abbreviation relaxed' := (relaxedCandidates volunteers).
#[local] Abbreviation body' :=
  (slotBody volunteers lastWeekData week random).

Lemma slotBody_strict st S R :
  strict' st S R ≠ [] →
  ∃ selected,
    selected ∈ strict' st S R
    ∧ body' S R st
      = Some (assignedState week st S R selected (warnings st)).
Proof.
  intros Hne.
  destruct (slotBody_outcome volunteers lastWeekData week random st S R)
    as (st' & Hbody & Hout).
  destruct Hout as [sel Hsel | sel Hs _ | Hs _]; [| done | done].
  by exists sel.
Qed.


Lemma slotBody_vacant st S R :
  strict' st S R = [] → relaxed' st S R = [] →
  body' S R st = Some (vacantState week st S R).
Proof.
  intros Hs Hr.
  destruct (slotBody_outcome volunteers lastWeekData week random st S R)
    as (st' & Hbody & Hout).
  destruct Hout as [sel Hsel | sel _ Hsel | _ _]; [| | done].
  - rewrite Hs in Hsel. by apply elem_of_nil in Hsel.
  - rewrite Hr in Hsel. by apply elem_of_nil in Hsel.
Qed.

(** With one candidate the random source does not matter. *)
Lemma slotBody_strict_single st S R v :
  strict' st S R = [v] →
  body' S R st = Some (assignedState week st S R v (warnings st)).
Proof.
  intros Hs. destruct (slotBody_strict st S R) as (sel & Hsel & ->).
  - by rewrite Hs.
  - rewrite Hs in Hsel. by apply list_elem_of_singleton in Hsel as ->.
Qed.


End SlotBodyCases.

(** ** Runs in which nobody is available *)

Lemma filter_none {A : Type} (f : A → bool) (l : list A) :
  (∀ x, x ∈ l → f x = false) → List.filter f l = [].
Proof.
  induction l as [|x l IH]; intros Hall; simpl; [done |].
  rewrite (Hall x) by apply list_elem_of_here.
  apply IH. intros y Hy. apply Hall. by apply list_elem_of_further.
Qed.

Lemma runSlots_cons volunteers lastWeekData week random S R slots st :
  runSlots volunteers lastWeekData week random ((S, R) :: slots) st =
  match slotBody volunteers lastWeekData week random S R st with
  | Some st' => runSlots volunteers lastWeekData week random slots st'
  | None => None
  end.
Proof. reflexivity. Qed.

(** The slots of services for which no volunteer is available all end
    vacant, each with its vacancy warning. *)
Lemma runSlots_nobody_available volunteers lastWeekData week random slots :
  (∀ slot v,
     slot ∈ slots → v ∈ volunteers → slot.1 ∉ availability v) →
  ∀ st,
    runSlots volunteers lastWeekData week random slots st =
    Some {| assignments :=
              assignments st
                ++ map (λ slot, newAssignment week slot.1 slot.2 None) slots;
            usedThisWeek := usedThisWeek st;
            warnings :=
              warnings st ++ map (λ slot, vacancyWarning slot.2 slot.1) slots;
            randomCalls := randomCalls st |}.
Proof.
  induction slots as [|[S R] slots IH]; intros Hnone st.
  - simpl. rewrite !app_nil_r. by destruct st.
  - rewrite runSlots_cons, slotBody_vacant.
    + rewrite IH.
      * simpl. by rewrite <- !app_assoc.
      * intros slot v Hslot. apply Hnone. by apply list_elem_of_further.
    + apply filter_none. intros v Hv. unfold strictFilter.
      rewrite bool_decide_false; [done |].
      apply (Hnone (S, R) v); [apply list_elem_of_here | done].
    + apply filter_none. intros v Hv. unfold relaxedFilter.
      rewrite bool_decide_false; [done |].
      apply (Hnone (S, R) v); [apply list_elem_of_here | done].
Qed.

Lemma scenario_volunteer_other_services nm score slot v :
  slot ∈ tail visitedSlots → v ∈ [scenario_volunteer nm score] →
  slot.1 ∉ availability v.
Proof.
  intros Hslot Hv. apply list_elem_of_singleton in Hv as ->. simpl.
  intros Hd. apply list_elem_of_singleton in Hd.
  apply list_elem_of_In in Hslot. vm_compute in Hslot.
  repeat (destruct Hslot as [<- | Hslot]; [discriminate Hd |]).
  destruct Hslot.
Qed.

(** ** Rosters with unique ids *)

Lemma unique_id (volunteers : list Volunteer) (v v' : Volunteer) :
  NoDup (map id volunteers) →
  v ∈ volunteers → v' ∈ volunteers → id v = id v' → v = v'.
Proof.
  induction volunteers as [|u us IH]; intros Hnd Hv Hv' Hid.
  - by apply elem_of_nil in Hv.
  - simpl in Hnd. apply NoDup_cons in Hnd as [Hu Hnd].
    apply elem_of_cons in Hv as [-> | Hv];
      apply elem_of_cons in Hv' as [-> | Hv']; [done | | | by apply IH].
    + destruct Hu. rewrite Hid. apply list_elem_of_fmap. eauto.
    + destruct Hu. rewrite <- Hid. apply list_elem_of_fmap. eauto.
Qed.

(** ** Tactics for the concrete schedules *)

(** Closes a goal [x ∉ l] for closed [x] and [l] by comparing [x] with
    each element. *)
Ltac not_in_closed_list :=
  let H := fresh "Hin" in
  intros H; apply list_elem_of_In in H; vm_compute in H;
  repeat (destruct H as [H | H]; [discriminate H |]);
  destruct H.

(** Runs [generateSchedule] on closed inputs and names the result. *)
Ltac run_schedule H :=
  vm_compute in H; injection H as <- <-.

(** * Part III: the claims *)

(** ** C1: last week's volunteers *)




(** ** C2: the weekly limit *)

(** The limit as the specification words it fails for a volunteer who
    gets Consola and Coordinación on Miércoles: on Sábado Mañana the
    same volunteer gets Consola and Transmisión. *)
Lemma weekly_limit_counterexample :
  ∃ schedule warns,
    generateSchedule [coordinator_volunteer] [] "2025-01-06"
      (λ _, random_zero) = Some (schedule, warns)
    ∧ ¬ spec_one_role_besides_coordination schedule.
Proof.
  eexists _, _. split; [vm_compute; reflexivity |].
  intros Hclaim.
  assert (Consola = Transmision) as Heq; [| discriminate Heq].
  apply (Hclaim (newAssignment "2025-01-06" SabadoManana Consola (Some 1%Z))
           (newAssignment "2025-01-06" SabadoManana Transmision (Some 1%Z))
           1%Z); try done.
  - do 6 apply list_elem_of_further. apply list_elem_of_here.
  - do 7 apply list_elem_of_further. apply list_elem_of_here.
Qed.

(** C2, as the code has it. Both passes admit a volunteer who already
    has a role this week only if the role of the slot is Coordinación or
    the roles the volunteer already has include Coordinación. So in the
    schedule a volunteer gets a second slot only if that slot is
    Coordinación or comes after a Coordinación slot of the same
    volunteer; a volunteer id with two different roles that are both not
    Coordinación also holds a Coordinación slot. *)
Theorem weekly_limit_lifted_by_coordination
    (volunteers : list Volunteer) (lastWeekData : list ScheduleAssignment)
    (week : string) (random : nat → Random) :
  (∀ st S R v,
     v ∈ strictCandidates volunteers lastWeekData st S R
     ∨ v ∈ relaxedCandidates volunteers st S R →
     rolesUsedOf (usedThisWeek st) (id v) = ∅
     ∨ R = Coordinacion
     ∨ Coordinacion ∈ rolesUsedOf (usedThisWeek st) (id v))
  ∧ ∃ schedule warns,
      generateSchedule volunteers lastWeekData week random
        = Some (schedule, warns)
      ∧ (∀ j k a b i,
           (k < j)%nat →
           schedule !! j = Some a → volunteer_id a = Some i →
           schedule !! k = Some b → volunteer_id b = Some i →
           function_name a = Coordinacion
           ∨ ∃ m c, (m < j)%nat ∧ schedule !! m = Some c
                    ∧ volunteer_id c = Some i
                    ∧ function_name c = Coordinacion)
      ∧ (∀ a b i,
           a ∈ schedule → b ∈ schedule →
           volunteer_id a = Some i → volunteer_id b = Some i →
           function_name a ≠ Coordinacion →
           function_name b ≠ Coordinacion →
           function_name a ≠ function_name b →
           ∃ c, c ∈ schedule ∧ volunteer_id c = Some i
                ∧ function_name c = Coordinacion).
Proof.
  split.
  - intros st S R v [Hv | Hv].
    + apply elem_of_strictCandidates in Hv. tauto.
    + apply elem_of_relaxedCandidates in Hv. tauto.
  - destruct (generateSchedule_outcome volunteers lastWeekData week random)
      as (st & Hgen & Hrun).
    exists (assignments st), (warnings st). split; [exact Hgen |].
    apply loop_inv_final in Hrun as (_ & _ & _ & _ & Hco).
    split; [exact Hco |].
    intros a b i Ha Hb Hai Hbi Hac Hbc Hne.
    apply list_elem_of_lookup in Ha as [ja Hja].
    apply list_elem_of_lookup in Hb as [jb Hjb].
    assert (∀ j k x y,
              (k < j)%nat →
              assignments st !! j = Some x → volunteer_id x = Some i →
              assignments st !! k = Some y → volunteer_id y = Some i →
              function_name x ≠ Coordinacion →
              ∃ c, c ∈ assignments st ∧ volunteer_id c = Some i
                   ∧ function_name c = Coordinacion) as Hlater.
    { intros j k x y Hkj Hx Hxi Hy Hyi Hxc.
      destruct (Hco j k x y i Hkj Hx Hxi Hy Hyi)
        as [? | (m & c & _ & Hc & ? & ?)]; [done |].
      exists c. split; [| done]. apply list_elem_of_lookup. eauto. }
    destruct (Nat.lt_trichotomy ja jb) as [Hlt | [-> | Hlt]].
    + by eapply (Hlater jb ja b a).
    + rewrite Hja in Hjb. injection Hjb as ->. done.
    + by eapply (Hlater ja jb a b).
Qed.

(** The volunteer of the schedule above with Consola and Transmisión
    also holds Coordinación. *)
Lemma weekly_limit_lifted_by_coordination_witness :
  ∃ c, c ∈ [newAssignment "2025-01-06" Domingo Transmision None;
            newAssignment "2025-01-06" Miercoles Consola (Some 1%Z);
            newAssignment "2025-01-06" Miercoles Transmision None;
            newAssignment "2025-01-06" Miercoles Proyeccion None;
            newAssignment "2025-01-06" Miercoles MediosDigitales None;
            newAssignment "2025-01-06" Miercoles Coordinacion (Some 1%Z);
            newAssignment "2025-01-06" SabadoManana Consola (Some 1%Z);
            newAssignment "2025-01-06" SabadoManana Transmision (Some 1%Z);
            newAssignment "2025-01-06" SabadoManana Proyeccion (Some 1%Z);
            newAssignment "2025-01-06" SabadoManana MediosDigitales
              (Some 1%Z);
            newAssignment "2025-01-06" SabadoManana Coordinacion (Some 1%Z);
            newAssignment "2025-01-06" SabadoTarde Consola None;
            newAssignment "2025-01-06" SabadoTarde Transmision None;
            newAssignment "2025-01-06" SabadoTarde Proyeccion None;
            newAssignment "2025-01-06" SabadoTarde MediosDigitales None;
            newAssignment "2025-01-06" SabadoTarde Coordinacion None]
       ∧ volunteer_id c = Some 1%Z
       ∧ function_name c = Coordinacion.
Proof.
  destruct (weekly_limit_lifted_by_coordination [coordinator_volunteer] []
              "2025-01-06" (λ _, random_zero))
    as (_ & schedule & warns & Hgen & _ & Hall).
  run_schedule Hgen.
  apply (Hall (newAssignment "2025-01-06" SabadoManana Consola (Some 1%Z))
           (newAssignment "2025-01-06" SabadoManana Transmision (Some 1%Z))
           1%Z).
  - do 6 apply list_elem_of_further. apply list_elem_of_here.
  - do 7 apply list_elem_of_further. apply list_elem_of_here.
  - reflexivity.
  - reflexivity.
  - discriminate.
  - discriminate.
  - discriminate.
Defined.

(** ** C3: scenario B *)



(** ** The slots of the schedule *)

Lemma visitedSlots_spec : visitedSlots = spec_needed_slots.
Proof. reflexivity. Qed.

Lemma slot_of_zip_with week slots : ∀ vids,
  length vids = length slots →
  map slot_of
    (zip_with (λ slot vid, newAssignment week slot.1 slot.2 vid) slots vids)
  = slots.
Proof.
  induction slots as [|[service role] slots IH]; intros [|vid vids] Hlen;
    simpl in *; try done.
  f_equal. apply IH. lia.
Qed.

Lemma week_start_zip_with week slots : ∀ vids,
  Forall (λ a, week_start a = week)
    (zip_with (λ slot vid, newAssignment week slot.1 slot.2 vid) slots vids).
Proof.
  induction slots as [|slot slots IH]; intros [|vid vids]; simpl;
    constructor; [done | apply IH].
Qed.

Lemma slot_count_map schedule service role :
  slot_count schedule service role =
  length
    (List.filter (λ slot, bool_decide (slot = (service, role)))
       (map slot_of schedule)).
Proof.
  unfold slot_count.
  induction schedule as [|a schedule IH]; simpl; [done |].
  destruct (bool_decide (slot_of a = (service, role))); simpl; by rewrite IH.
Qed.

(** C4. For every roster, every list of last week's rows, every week and
    every random source, [generateSchedule] returns a schedule whose
    slots are exactly the needed ones, in the canonical order (services
    first, roles within each service, Domingo with Transmisión only):
    each needed slot occurs once and no other slot occurs. *)
Theorem schedule_has_needed_slots
    (volunteers : list Volunteer) (lastWeekData : list ScheduleAssignment)
    (week : string) (random : nat → Random) :
  ∃ schedule warns,
    generateSchedule volunteers lastWeekData week random
      = Some (schedule, warns)
    ∧ map slot_of schedule = spec_needed_slots
    ∧ (∀ service role,
         slot_count schedule service role
         = if bool_decide (spec_needed service role) then 1%nat else 0%nat)
    ∧ Forall (λ a, week_start a = week) schedule.
Proof.
  destruct (generateSchedule_outcome volunteers lastWeekData week random)
    as (st & Hgen & Hrun).
  exists (assignments st), (warnings st). split; [exact Hgen |].
  apply slots_outcome_assignments in Hrun as (vids & Hlen & Heq).
  cbn [assignments initialState app] in Heq.
  assert (map slot_of (assignments st) = spec_needed_slots) as Hslots.
  { rewrite Heq, <- visitedSlots_spec. by apply slot_of_zip_with. }
  split; [exact Hslots |]. split.
  - intros service role. rewrite slot_count_map, Hslots.
    by destruct service, role.
  - rewrite Heq. apply week_start_zip_with.
Qed.

(** ** C5: the first filter *)

Lemma spec_recentlyServed_lastWeek lastWeekData (i : Z) :
  i ∈ spec_recentlyServed lastWeekData
  ↔ Some i ∈ lastWeekVolunteers lastWeekData.
Proof.
  unfold spec_recentlyServed. rewrite elem_of_lastWeekVolunteers.
  rewrite elem_of_list_to_set, list_elem_of_omap. naive_solver.
Qed.

Lemma strictFilter_spec lastWeekData used S R v :
  strictFilter (lastWeekVolunteers lastWeekData) used S R v
  = bool_decide (spec_strict_eligible lastWeekData used S R v).
Proof.
  apply eq_true_iff_eq.
  rewrite strictFilter_true, bool_decide_eq_true.
  unfold spec_strict_eligible, weeklyLimitAllows, rolesUsedOf.
  by rewrite spec_recentlyServed_lastWeek.
Qed.

(** C5. For every slot (S, R), every roster and every state of the loop,
    the strict candidates are the volunteers of the roster, in roster
    order, for whom (a) S is in the availability, (b) R is in the
    preferred functions, (c) the id is not in recentlyServed and (d) no
    role is assigned yet this week, or R is Coordinación, or the roles
    already assigned this week include Coordinación. *)
Theorem strict_pass_candidates
    (volunteers : list Volunteer) (lastWeekData : list ScheduleAssignment)
    (st : LoopState) (S : ServiceType) (R : RoleFunction) :
  strictCandidates volunteers lastWeekData st S R
  = List.filter
      (λ v, bool_decide
              (spec_strict_eligible lastWeekData (usedThisWeek st) S R v))
      volunteers
  ∧ ∀ v,
      v ∈ strictCandidates volunteers lastWeekData st S R
      ↔ v ∈ volunteers
        ∧ spec_strict_eligible lastWeekData (usedThisWeek st) S R v.
Proof.
  assert (Heq : strictCandidates volunteers lastWeekData st S R
                = List.filter
                    (λ v, bool_decide
                            (spec_strict_eligible lastWeekData
                               (usedThisWeek st) S R v))
                    volunteers).
  { unfold strictCandidates. apply filter_ext. intros v.
    apply strictFilter_spec. }
  split; [exact Heq |].
  intros v. rewrite Heq, list_elem_of_In, filter_In, <- list_elem_of_In.
  by rewrite bool_decide_eq_true.
Qed.

(** ** C6: availability *)

(** C6. For every input, [generateSchedule] returns a schedule in which
    every non-null assignment names a volunteer of the roster whose
    availability contains the service of the assignment (with unique
    ids: the volunteer of the roster with that id); the candidates of
    the strict pass and those of the relaxed pass are all available for
    the service of the slot. *)
Theorem assigned_volunteer_is_available
    (volunteers : list Volunteer) (lastWeekData : list ScheduleAssignment)
    (week : string) (random : nat → Random) :
  (∀ st S R v,
     v ∈ strictCandidates volunteers lastWeekData st S R
     ∨ v ∈ relaxedCandidates volunteers st S R →
     S ∈ availability v)
  ∧ ∃ schedule warns,
      generateSchedule volunteers lastWeekData week random
        = Some (schedule, warns)
      ∧ (∀ a i, a ∈ schedule → volunteer_id a = Some i →
           ∃ v, v ∈ volunteers ∧ id v = i
                ∧ service_type a ∈ availability v)
      ∧ (NoDup (map id volunteers) →
         ∀ a v, a ∈ schedule → v ∈ volunteers →
           volunteer_id a = Some (id v) →
           service_type a ∈ availability v).
Proof.
  split.
  - intros st S R v [Hv | Hv].
    + apply elem_of_strictCandidates in Hv. tauto.
    + apply elem_of_relaxedCandidates in Hv. tauto.
  - destruct (generateSchedule_outcome volunteers lastWeekData week random)
      as (st & Hgen & Hrun).
    exists (assignments st), (warnings st). split; [exact Hgen |].
    apply loop_inv_final in Hrun as (Hav & _).
    split; [exact Hav |].
    intros Hnd a v Ha Hv Hid.
    destruct (Hav a (id v) Ha Hid) as (v' & Hv' & Hid' & Hs).
    by rewrite <- (unique_id volunteers v' v Hnd Hv' Hv Hid').
Qed.

(** Scenario A: volunteer 1 is assigned on Domingo and is available on
    Domingo. *)
Lemma assigned_volunteer_is_available_witness :
  ∃ v, v ∈ [scenario_volunteer "A" 0] ∧ id v = 1%Z
       ∧ Domingo ∈ availability v.
Proof.
  destruct (assigned_volunteer_is_available [scenario_volunteer "A" 0] []
              "2025-01-06" (λ _, random_zero))
    as (_ & schedule & warns & Hgen & Hall & _).
  run_schedule Hgen.
  apply (Hall (newAssignment "2025-01-06" Domingo Transmision (Some 1%Z))
           1%Z).
  - apply list_elem_of_here.
  - reflexivity.
Defined.

(** ** C7, C8: the warnings *)

(** The rows and the warnings of a state stay where they are in the
    rest of the run; the row of the [j]-th slot is pushed by the
    iteration that starts in the state the loop has after the [j] slots
    before it, and it is null exactly when both filters of that
    iteration are empty, in which case the vacancy warning of the slot
    is in the final list. *)
Lemma runSlots_rows volunteers lastWeekData week random slots :
  ∀ st st',
    runSlots volunteers lastWeekData week random slots st = Some st' →
    (∀ w, w ∈ warnings st → w ∈ warnings st')
    ∧ (∀ k a, assignments st !! k = Some a → assignments st' !! k = Some a)
    ∧ ∀ j S R, slots !! j = Some (S, R) →
        ∃ stj a,
          runSlots volunteers lastWeekData week random (take j slots) st
            = Some stj
          ∧ assignments st' !! (length (assignments st) + j)%nat = Some a
          ∧ service_type a = S ∧ function_name a = R
          ∧ (strictCandidates volunteers lastWeekData stj S R = []
             ∧ relaxedCandidates volunteers stj S R = []
             ↔ volunteer_id a = None)
          ∧ (volunteer_id a = None → vacancyWarning R S ∈ warnings st').
Proof.
  induction slots as [|[S0 R0] slots IH]; intros st st' Hrun.
  - injection Hrun as <-. split; [done |]. split; [done |].
    intros j S R Hj. by rewrite lookup_nil in Hj.
  - rewrite runSlots_cons in Hrun.
    destruct (slotBody_outcome volunteers lastWeekData week random st S0 R0)
      as (st1 & Hbody & Hout).
    rewrite Hbody in Hrun.
    destruct (IH st1 st' Hrun) as (Hwarns & Hrows & Hslots).
    assert (∃ vid,
      assignments st1
        = assignments st ++ [newAssignment week S0 R0 vid]
      ∧ (strictCandidates volunteers lastWeekData st S0 R0 = []
         ∧ relaxedCandidates volunteers st S0 R0 = []
         ↔ vid = None)
      ∧ (vid = None → vacancyWarning R0 S0 ∈ warnings st1)
      ∧ ∀ w, w ∈ warnings st → w ∈ warnings st1)
      as (vid & Hrow & Hnull & Hwarn & Hkeep).
    { destruct Hout as [sel Hsel | sel Hstrict Hsel | Hstrict Hrelaxed].
      - exists (Some (id sel)). split; [done |]. split; [| done].
        split; [| done]. intros [Hempty _].
        rewrite Hempty in Hsel. by apply elem_of_nil in Hsel.
      - exists (Some (id sel)). split; [done |]. split; [| split; [done |]].
        + split; [| done]. intros [_ Hempty].
          rewrite Hempty in Hsel. by apply elem_of_nil in Hsel.
        + intros w Hw. simpl. apply elem_of_app. by left.
      - exists None. split; [done |]. split; [done |]. simpl. split.
        + intros _. apply elem_of_snoc. by right.
        + intros w Hw. apply elem_of_app. by left. }
    split; [| split].
    + intros w Hw. by apply Hwarns, Hkeep.
    + intros k a Ha. apply Hrows. rewrite Hrow.
      by apply lookup_app_l_Some.
    + intros [|j] S R Hj.
      * injection Hj as -> ->.
        exists st, (newAssignment week S R vid). split; [done |].
        split; [| split; [done | split; [done | split; [done |]]]].
        -- apply Hrows. rewrite Hrow, Nat.add_0_r.
           by rewrite lookup_app_r, Nat.sub_diag by lia.
        -- intros Hvid. by apply Hwarns, Hwarn.
      * destruct (Hslots j S R Hj)
          as (stj & a & Hprefix & Ha & HS & HR & Hnone & Hw).
        exists stj, a. split.
        { cbn [take]. by rewrite runSlots_cons, Hbody. }
        split; [| done].
        rewrite <- Ha, Hrow, length_app. f_equal. simpl. lia.
Qed.

(** The needed slots of the specification are visited by the loops. *)
Lemma spec_needed_visited (S : ServiceType) (R : RoleFunction) :
  spec_needed S R → ∃ j, visitedSlots !! j = Some (S, R).
Proof.
  intros Hneeded. apply list_elem_of_lookup.
  rewrite visitedSlots_spec. unfold spec_needed_slots.
  apply list_elem_of_In, filter_In. split.
  - apply in_prod; destruct S, R; simpl; tauto.
  - by apply bool_decide_eq_true.
Qed.

(** C7. [generateSchedule] never fails on a slot that cannot be filled.
    No iteration of the loop raises an error, whatever its state, and a
    schedule and a warning list are always returned. Every needed slot
    has its row in the schedule; with the state the loop has when it
    reaches the slot, that row is null exactly when both the strict and
    the relaxed filter yield no candidate, and then the vacancy warning
    of the slot is in the warning list. A row of the schedule is null
    if and only if the vacancy warning of its role and service is in
    the warning list. *)
Theorem vacancy_is_warned_not_raised
    (volunteers : list Volunteer) (lastWeekData : list ScheduleAssignment)
    (week : string) (random : nat → Random) :
  (∀ st S R,
     ∃ st', slotBody volunteers lastWeekData week random S R st = Some st')
  ∧ ∃ schedule warns,
      generateSchedule volunteers lastWeekData week random
        = Some (schedule, warns)
      ∧ (∀ S R, spec_needed S R →
           ∃ j st a,
             visitedSlots !! j = Some (S, R)
             ∧ runSlots volunteers lastWeekData week random
                 (take j visitedSlots) initialState = Some st
             ∧ schedule !! j = Some a
             ∧ service_type a = S ∧ function_name a = R
             ∧ (strictCandidates volunteers lastWeekData st S R = []
                ∧ relaxedCandidates volunteers st S R = []
                ↔ volunteer_id a = None)
             ∧ (volunteer_id a = None → vacancyWarning R S ∈ warns))
      ∧ (∀ a, a ∈ schedule →
           (volunteer_id a = None
            ↔ vacancyWarning (function_name a) (service_type a) ∈ warns))
      ∧ ∀ S R,
          (∃ a, a ∈ schedule ∧ service_type a = S ∧ function_name a = R
                ∧ volunteer_id a = None)
          ↔ vacancyWarning R S ∈ warns.
Proof.
  split.
  { intros st S R.
    destruct (slotBody_outcome volunteers lastWeekData week random st S R)
      as (st' & Hbody & _).
    by exists st'. }
  destruct (runSlots_outcome volunteers lastWeekData week random
              visitedSlots initialState) as (st & Hrun & Hout).
  exists (assignments st), (warnings st).
  split; [by rewrite generateSchedule_runSlots, Hrun |].
  assert (Hslotwise : ∀ S R,
    (∃ a, a ∈ assignments st ∧ service_type a = S ∧ function_name a = R
          ∧ volunteer_id a = None)
    ↔ vacancyWarning R S ∈ warnings st).
  { apply loop_inv_final in Hout as (_ & _ & Hvac & _).
    intros S R. rewrite <- (Hvac S R). unfold slot_of.
    split; intros (a & Ha & H); exists a; (split; [exact Ha |]).
    - destruct H as (<- & <- & ?). done.
    - destruct H as (Heq & ?). injection Heq as <- <-. done. }
  split; [| split; [| exact Hslotwise]].
  - intros S R Hneeded.
    destruct (spec_needed_visited S R Hneeded) as [j Hj].
    destruct (runSlots_rows _ _ _ _ _ _ _ Hrun) as (_ & _ & Hslots).
    destruct (Hslots j S R Hj) as (stj & a & ? & ? & ? & ? & ? & ?).
    by exists j, stj, a.
  - intros a Ha. split.
    + intros Hnone. apply Hslotwise. by exists a.
    + intros Hwarn. apply Hslotwise in Hwarn as (b & Hb & HS & HR & Hnone).
      enough (b = a) as <- by exact Hnone.
      assert (map slot_of (assignments st) = visitedSlots) as Hvisited.
      { apply slots_outcome_assignments in Hout as (vids & Hlen & Heq).
        cbn [assignments initialState app] in Heq.
        rewrite Heq. by apply slot_of_zip_with. }
      assert (NoDup (map slot_of (assignments st))) as Hnd.
      { rewrite Hvisited.
        apply (bool_decide_unpack (NoDup visitedSlots)). by vm_compute. }
      apply list_elem_of_lookup in Ha as [ja Hja].
      apply list_elem_of_lookup in Hb as [jb Hjb].
      assert (jb = ja) as Heq.
      { apply (NoDup_lookup _ jb ja (service_type a, function_name a) Hnd).
        - rewrite list_lookup_fmap, Hjb. unfold slot_of. simpl.
          by rewrite HS, HR.
        - by rewrite list_lookup_fmap, Hja. }
      rewrite Heq, Hja in Hjb. by injection Hjb.
Qed.

(** The roster of one volunteer who prefers Consola and Coordinación:
    the loop reaches Transmisión on Miércoles after it has given Consola
    to the volunteer, both filters are empty, and the third row of the
    schedule is null with its vacancy warning. *)
Lemma vacancy_is_warned_not_raised_witness :
  ∃ schedule warns a,
    generateSchedule [coordinator_volunteer] [] "2025-01-06"
      (λ _, random_zero) = Some (schedule, warns)
    ∧ schedule !! 2%nat = Some a
    ∧ service_type a = Miercoles ∧ function_name a = Transmision
    ∧ volunteer_id a = None
    ∧ vacancyWarning Transmision Miercoles ∈ warns.
Proof.
  destruct (vacancy_is_warned_not_raised [coordinator_volunteer] []
              "2025-01-06" (λ _, random_zero))
    as (_ & schedule & warns & Hgen & Hslots & _).
  destruct (Hslots Miercoles Transmision)
    as (j & st & a & Hj & Hrun & Ha & HS & HR & Hnone & Hwarn).
  { by right. }
  assert (j = 2%nat) as ->.
  { apply (NoDup_lookup visitedSlots j 2 (Miercoles, Transmision));
      [| exact Hj | reflexivity].
    apply (bool_decide_unpack (NoDup visitedSlots)). by vm_compute. }
  vm_compute in Hrun. injection Hrun as <-.
  assert (volunteer_id a = None) as Hvacant.
  { apply Hnone. split; by vm_compute. }
  exists schedule, warns, a.
  split; [exact Hgen |]. split; [exact Ha |].
  split; [exact HS |]. split; [exact HR |].
  split; [exact Hvacant | exact (Hwarn Hvacant)].
Defined.

(** C8. An iteration appends the relaxed-assignment warning of its slot
    exactly when its strict pass is empty and its relaxed pass is not
    (otherwise it appends nothing, or the vacancy warning); and in the
    schedule returned by [generateSchedule], a non-null assignment whose
    role is in the preferred functions of no roster volunteer with that
    id (with unique ids: not in those of the assigned volunteer) comes
    with the relaxed-assignment warning for its role and service. *)
Theorem non_preferred_is_warned
    (volunteers : list Volunteer) (lastWeekData : list ScheduleAssignment)
    (week : string) (random : nat → Random) :
  (∀ st S R,
     ∃ st',
       slotBody volunteers lastWeekData week random S R st = Some st'
       ∧ (strictCandidates volunteers lastWeekData st S R = []
          ∧ relaxedCandidates volunteers st S R ≠ [] →
          warnings st' = warnings st ++ [relaxedWarning R S])
       ∧ (strictCandidates volunteers lastWeekData st S R ≠ [] →
          warnings st' = warnings st)
       ∧ (strictCandidates volunteers lastWeekData st S R = []
          ∧ relaxedCandidates volunteers st S R = [] →
          warnings st' = warnings st ++ [vacancyWarning R S]))
  ∧ ∃ schedule warns,
      generateSchedule volunteers lastWeekData week random
        = Some (schedule, warns)
      ∧ (∀ a i, a ∈ schedule → volunteer_id a = Some i →
           (∀ v, v ∈ volunteers → id v = i →
              function_name a ∉ functions v) →
           relaxedWarning (function_name a) (service_type a) ∈ warns)
      ∧ (NoDup (map id volunteers) →
         ∀ a v, a ∈ schedule → v ∈ volunteers →
           volunteer_id a = Some (id v) →
           function_name a ∉ functions v →
           relaxedWarning (function_name a) (service_type a) ∈ warns).
Proof.
  split.
  - intros st S R.
    destruct (slotBody_outcome volunteers lastWeekData week random st S R)
      as (st' & Hbody & Hout).
    exists st'. split; [exact Hbody |].
    destruct Hout as [sel Hsel | sel Hs Hsel | Hs Hr]; simpl.
    + assert (strictCandidates volunteers lastWeekData st S R ≠ []).
      { intros Heq. rewrite Heq in Hsel. by apply elem_of_nil in Hsel. }
      naive_solver.
    + assert (relaxedCandidates volunteers st S R ≠ []).
      { intros Heq. rewrite Heq in Hsel. by apply elem_of_nil in Hsel. }
      naive_solver.
    + naive_solver.
  - destruct (generateSchedule_outcome volunteers lastWeekData week random)
      as (st & Hgen & Hrun).
    exists (assignments st), (warnings st). split; [exact Hgen |].
    apply loop_inv_final in Hrun as (_ & Hpref & _).
    assert (∀ a i, a ∈ assignments st → volunteer_id a = Some i →
              (∀ v, v ∈ volunteers → id v = i →
                 function_name a ∉ functions v) →
              relaxedWarning (function_name a) (service_type a)
              ∈ warnings st) as Hall.
    { intros a i Ha Hid Hnone.
      destruct (Hpref a i Ha Hid) as [(v & Hv & Hvi & Hfn & _) | Hw];
        [| exact Hw].
      by destruct (Hnone v Hv Hvi). }
    split; [exact Hall |].
    intros Hnd a v Ha Hv Hid Hfn.
    apply (Hall a (id v) Ha Hid). intros v' Hv' Hid'.
    by rewrite (unique_id volunteers v' v Hnd Hv' Hv Hid').
Qed.

(** Scenario C: the volunteer prefers Transmisión only, is assigned
    Consola on Miércoles, and the warning is there. *)
Lemma non_preferred_is_warned_witness :
  ∃ schedule warns,
    generateSchedule [scenarioC_volunteer] [] "2025-01-06"
      (λ _, random_zero) = Some (schedule, warns)
    ∧ newAssignment "2025-01-06" Miercoles Consola (Some 1%Z) ∈ schedule
    ∧ relaxedWarning Consola Miercoles ∈ warns.
Proof.
  destruct (non_preferred_is_warned [scenarioC_volunteer] [] "2025-01-06"
              (λ _, random_zero))
    as (_ & schedule & warns & Hgen & _ & Hall).
  exists schedule, warns. split; [exact Hgen |].
  run_schedule Hgen.
  split; [apply list_elem_of_further, list_elem_of_here |].
  apply Hall
    with (a := newAssignment "2025-01-06" Miercoles Consola (Some 1%Z))
         (v := scenarioC_volunteer).
  - apply NoDup_singleton.
  - apply list_elem_of_further, list_elem_of_here.
  - apply list_elem_of_here.
  - reflexivity.
  - not_in_closed_list.
Defined.

(** ** C9: scenario A *)

(** C9, as the code has it. Scenario A: the schedule has the sixteen
    needed slots; Domingo Transmisión goes to volunteer 1 and the
    fifteen slots of the other services are vacant, each with its
    vacancy warning; there is no relaxed-assignment warning. *)
Theorem scenarioA_schedule (nm : string) (score : Z) (random : nat → Random) :
  generateSchedule [scenario_volunteer nm score] [] "2025-01-06" random
  = Some (newAssignment "2025-01-06" Domingo Transmision (Some 1%Z)
            :: other_slots_vacant "2025-01-06",
          other_slots_warnings).
Proof.
  rewrite generateSchedule_runSlots.
  change visitedSlots with ((Domingo, Transmision) :: tail visitedSlots).
  rewrite runSlots_cons.
  rewrite (slotBody_strict_single _ _ _ _ _ _ _ (scenario_volunteer nm score))
    by reflexivity.
  rewrite runSlots_nobody_available
    by apply scenario_volunteer_other_services.
  reflexivity.
Qed.

(** Scenario A as the specification words it fails: the warning list
    is not empty. *)
Lemma scenarioA_counterexample :
  ∃ schedule warns,
    generateSchedule [scenario_volunteer "A" 0] [] "2025-01-06"
      (λ _, random_zero) = Some (schedule, warns)
    ∧ ¬ spec_scenarioA_result "2025-01-06" schedule warns.
Proof.
  eexists _, _. split; [vm_compute; reflexivity |].
  intros [_ Hwarns]. discriminate Hwarns.
Qed.

(** ** C10: the random index *)

(** C10. Whenever the candidate list is not empty, the index
    [floor(random * length)] is within its bounds and the element read
    there is a member of the list; so every non-null [volunteer_id] of
    the schedule that [generateSchedule] returns is the id of a
    volunteer of the roster. The bound also holds for the index as
    binary64 arithmetic computes it, for every Number in [0, 1) and
    every list of fewer than 2^53 elements, and that index is the one
    the exact computation reads for some draw. *)
Theorem selected_is_roster_member
    (volunteers : list Volunteer) (lastWeekData : list ScheduleAssignment)
    (week : string) (random : nat → Random) :
  (∀ (r : Random) (candidates : list Volunteer),
     (0 < length candidates)%nat →
     (0 ≤ randomIndex r (length candidates)
        < Z.of_nat (length candidates))%Z
     ∧ ∃ selected,
         at_index candidates (randomIndex r (length candidates))
           = Some selected
         ∧ selected ∈ candidates)
  ∧ (∀ (x : spec_float) (len : nat),
       is_random_number x = true →
       (0 < Z.of_nat len < 2 ^ 53)%Z →
       ∃ k, binary64Index x len = Some k
            ∧ (0 ≤ k < Z.of_nat len)%Z
            ∧ ∃ r : Random, randomIndex r len = k)
  ∧ ∃ schedule warns,
      generateSchedule volunteers lastWeekData week random
        = Some (schedule, warns)
      ∧ ∀ a i, a ∈ schedule → volunteer_id a = Some i →
          ∃ v, v ∈ volunteers ∧ id v = i.
Proof.
  split; [| split].
  - intros r candidates Hlen. split.
    + by apply randomIndex_range.
    + by apply random_pick.
  - intros x len Hx Hlen.
    destruct (binary64_index_in_range x len Hx Hlen) as (k & Hk & Hrange).
    exists k. split; [exact Hk |]. split; [exact Hrange |].
    by apply exact_index_reaches.
  - destruct (generateSchedule_outcome volunteers lastWeekData week random)
      as (st & Hgen & Hrun).
    exists (assignments st), (warnings st). split; [exact Hgen |].
    apply loop_inv_final in Hrun as (Hav & _).
    intros a i Ha Hid. destruct (Hav a i Ha Hid) as (v & ? & ? & _).
    by exists v.
Qed.

(** A draw of one half on two candidates reads index 1; the Number
    [two_thirds_number] on three candidates reads an index below 3. *)
Lemma selected_is_roster_member_witness :
  ((0 ≤ randomIndex random_half 2 < 2)%Z
   ∧ ∃ selected,
       at_index [scenarioC_volunteer; scenario_volunteer "A" 0]
         (randomIndex random_half 2) = Some selected
       ∧ selected ∈ [scenarioC_volunteer; scenario_volunteer "A" 0])
  ∧ ∃ k, binary64Index two_thirds_number 3 = Some k
         ∧ (0 ≤ k < 3)%Z
         ∧ ∃ r : Random, randomIndex r 3 = k.
Proof.
  destruct (selected_is_roster_member [] [] "2025-01-06" (λ _, random_zero))
    as (Hpick & Hnumber & _).
  split.
  - apply (Hpick random_half
             [scenarioC_volunteer; scenario_volunteer "A" 0]).
    simpl. lia.
  - apply (Hnumber two_thirds_number 3%nat); [reflexivity | ].
    split; reflexivity.
Defined.

(** * Part IV: the views and the registration form *)

(** ** The notes of the registration form *)

Lemma split_lines_nonempty (text : string) : split_lines text ≠ [].
Proof.
  destruct text as [|c rest]; simpl; [done |].
  destruct (Ascii.eqb c newline); [done |].
  by destruct (split_lines rest).
Qed.

Lemma join_lines_cons (note : string) (notes : list string) :
  notes ≠ [] →
  join_lines (note :: notes) = note +:+ String newline (join_lines notes).
Proof. by destruct notes. Qed.

Lemma join_split_lines (text : string) :
  join_lines (split_lines text) = text.
Proof.
  induction text as [|c rest IH]; [done |]. simpl.
  destruct (Ascii.eqb_spec c newline) as [-> | Hc].
  - rewrite join_lines_cons by apply split_lines_nonempty.
    simpl. by rewrite IH.
  - destruct (split_lines rest) as [|first others] eqn:Hsplit.
    + by destruct (split_lines_nonempty rest).
    + destruct others as [|second others]; simpl in *; by rewrite <- IH.
Qed.

Lemma split_lines_one_line (text : string) :
  Forall (λ note, one_line note = true) (split_lines text).
Proof.
  induction text as [|c rest IH]; simpl; [by repeat constructor |].
  destruct (Ascii.eqb c newline) eqn:Hc; [by constructor |].
  destruct (split_lines rest) as [|first others].
  - repeat constructor. simpl. by rewrite Hc.
  - apply Forall_cons in IH as [Hfirst Hothers].
    constructor; [| done]. simpl. by rewrite Hc, Hfirst.
Qed.

Lemma split_lines_append (note text : string) :
  one_line note = true →
  split_lines (note +:+ String newline text) = note :: split_lines text.
Proof.
  intros Hnote. induction note as [|c note IH]; simpl.
  - reflexivity.
  - simpl in Hnote. apply andb_true_iff in Hnote as [Hc Hnote].
    apply negb_true_iff in Hc. rewrite Hc.
    change (String.append note (String newline text))
      with (note +:+ String newline text).
    by rewrite IH.
Qed.

Lemma split_lines_single (note : string) :
  one_line note = true → split_lines note = [note].
Proof.
  intros Hnote. induction note as [|c note IH]; [done |]. simpl.
  simpl in Hnote. apply andb_true_iff in Hnote as [Hc Hnote].
  apply negb_true_iff in Hc. by rewrite Hc, IH.
Qed.

(** ** The toggles of the registration form *)

Section Toggle.

Context {A : Type} `{EqDecision A}.

Lemma elem_of_toggle (f x : A) (current : list A) :
  x ∈ toggle f current
  ↔ (x = f ∧ f ∉ current) ∨ (x ≠ f ∧ x ∈ current).
Proof.
  unfold toggle. case_bool_decide as Hin.
  - rewrite list_elem_of_In, filter_In, <- list_elem_of_In.
    rewrite negb_true_iff, bool_decide_eq_false. naive_solver.
  - rewrite elem_of_app, list_elem_of_singleton.
    destruct (decide (x = f)); naive_solver.
Qed.

Lemma NoDup_toggle (f : A) (current : list A) :
  NoDup current → NoDup (toggle f current).
Proof.
  intros Hnd. unfold toggle. case_bool_decide as Hin.
  - apply NoDup_ListNoDup, List.NoDup_filter, NoDup_ListNoDup, Hnd.
  - apply NoDup_app. split; [done |]. split; [| apply NoDup_singleton].
    intros x Hx Hf. apply list_elem_of_singleton in Hf. by subst.
Qed.

Lemma afterClicks_spec (clicks : list A) : ∀ current,
  NoDup current →
  NoDup (afterClicks current clicks)
  ∧ ∀ x, x ∈ afterClicks current clicks
         ↔ xorb (bool_decide (x ∈ current)) (Nat.odd (clicksOn x clicks))
           = true.
Proof.
  induction clicks as [|f clicks IH]; intros current Hnd.
  - split; [done |]. intros x. simpl.
    rewrite xorb_false_r. by rewrite bool_decide_eq_true.
  - destruct (IH (toggle f current) (NoDup_toggle f current Hnd))
      as [Hnd' Hin].
    split; [exact Hnd' |]. intros x.
    change (afterClicks current (f :: clicks))
      with (afterClicks (toggle f current) clicks).
    rewrite Hin. unfold clicksOn. simpl.
    pose proof (elem_of_toggle f x current) as Htoggle.
    destruct (decide (f = x)) as [-> | Hne].
    + rewrite (bool_decide_true (x = x)) by done. simpl.
      rewrite Nat.odd_succ, <- Nat.negb_odd.
      destruct (decide (x ∈ current)) as [Hx | Hx].
      * rewrite (bool_decide_false (x ∈ toggle x current)) by naive_solver.
        rewrite (bool_decide_true (x ∈ current)) by done.
        by destruct (Nat.odd _).
      * rewrite (bool_decide_true (x ∈ toggle x current)) by naive_solver.
        rewrite (bool_decide_false (x ∈ current)) by done.
        by destruct (Nat.odd _).
    + rewrite (bool_decide_false (f = x)) by done.
      destruct (decide (x ∈ current)) as [Hx | Hx].
      * rewrite (bool_decide_true (x ∈ toggle f current)) by naive_solver.
        by rewrite (bool_decide_true (x ∈ current)) by done.
      * rewrite (bool_decide_false (x ∈ toggle f current)) by naive_solver.
        by rewrite (bool_decide_false (x ∈ current)) by done.
Qed.

End Toggle.

(** ** The ranking *)

Lemma insertSorted_Permutation {A : Type} (compareFn : A → A → Z) (x : A)
    (sorted : list A) :
  insertSorted compareFn x sorted ≡ₚ x :: sorted.
Proof.
  induction sorted as [|y sorted IH]; simpl; [done |].
  destruct (compareFn x y <=? 0)%Z; [done |].
  rewrite IH. apply Permutation_swap.
Qed.

Lemma sortStable_Permutation {A : Type} (compareFn : A → A → Z)
    (l : list A) :
  sortStable compareFn l ≡ₚ l.
Proof.
  induction l as [|x l IH]; simpl; [done |].
  by rewrite insertSorted_Permutation, IH.
Qed.

Lemma insertSorted_sorted (x : Volunteer) (sorted : list Volunteer) :
  StronglySorted score_order sorted →
  StronglySorted score_order (insertSorted compareScore x sorted).
Proof.
  induction 1 as [|y sorted Hsorted IH Hy]; simpl.
  - by repeat constructor.
  - unfold compareScore at 1.
    destruct (Z.leb_spec (total_score y - total_score x) 0) as [Hle | Hgt].
    + constructor; [by constructor |]. constructor.
      * unfold score_order. lia.
      * eapply Forall_impl; [exact Hy |]. unfold score_order.
        intros z Hz. lia.
    + constructor; [exact IH |].
      rewrite insertSorted_Permutation. constructor; [| exact Hy].
      unfold score_order. lia.
Qed.

Lemma sortStable_sorted (l : list Volunteer) :
  StronglySorted score_order (sortStable compareScore l).
Proof.
  induction l as [|x l IH]; simpl; [constructor |].
  by apply insertSorted_sorted.
Qed.

Lemma withScore_insertSorted (score : Z) (x : Volunteer)
    (sorted : list Volunteer) :
  withScore score (insertSorted compareScore x sorted)
  = withScore score (x :: sorted).
Proof.
  induction sorted as [|y sorted IH]; [done |]. simpl.
  unfold compareScore at 1.
  destruct (Z.leb_spec (total_score y - total_score x) 0) as [Hle | Hgt];
    [done |].
  unfold withScore in *. simpl in *. rewrite IH.
  repeat case_bool_decide; try done. lia.
Qed.

Lemma withScore_sortStable (score : Z) (l : list Volunteer) :
  withScore score (sortStable compareScore l) = withScore score l.
Proof.
  induction l as [|x l IH]; [done |]. simpl.
  rewrite withScore_insertSorted. unfold withScore in *. simpl.
  by rewrite IH.
Qed.

(** ** The schedule behind the views *)

(** What the loop leaves: the invariants, and one assignment per
    visited slot. *)
Lemma generateSchedule_loop_inv volunteers lastWeekData week random :
  ∃ st,
    generateSchedule volunteers lastWeekData week random
      = Some (assignments st, warnings st)
    ∧ loop_inv volunteers lastWeekData st
    ∧ map slot_of (assignments st) = visitedSlots.
Proof.
  destruct (generateSchedule_outcome volunteers lastWeekData week random)
    as (st & Hgen & Hrun).
  exists st. split; [exact Hgen |]. split; [by eapply loop_inv_final |].
  apply slots_outcome_assignments in Hrun as (vids & Hlen & Heq).
  cbn [assignments initialState app] in Heq.
  rewrite Heq. by apply slot_of_zip_with.
Qed.

Lemma isNeeded_visited (service : ServiceType) (func : RoleFunction) :
  isNeeded service func = true ↔ (service, func) ∈ visitedSlots.
Proof.
  rewrite list_elem_of_In.
  destruct service, func; vm_compute; split; intros H;
    try reflexivity; try discriminate H; try tauto;
    repeat (destruct H as [H | H]; [discriminate H |]); destruct H.
Qed.

Lemma NoDup_visitedSlots : NoDup visitedSlots.
Proof. apply (bool_decide_unpack (NoDup visitedSlots)). by vm_compute. Qed.

Lemma row_view_lookup (rows schedule : list ScheduleAssignment) (j : nat)
    (a : ScheduleAssignment) :
  map row_view rows = map row_view schedule →
  rows !! j = Some a →
  ∃ a', schedule !! j = Some a' ∧ row_view a' = row_view a.
Proof.
  intros Hview Ha. apply (f_equal (λ l, l !! j)) in Hview.
  rewrite !list_lookup_fmap, Ha in Hview. simpl in Hview.
  destruct (schedule !! j) as [a' |]; [| discriminate Hview].
  exists a'. split; [done |]. simpl in Hview. congruence.
Qed.

Lemma row_view_elem_of (rows schedule : list ScheduleAssignment)
    (a : ScheduleAssignment) :
  map row_view rows = map row_view schedule →
  a ∈ rows → ∃ a', a' ∈ schedule ∧ row_view a' = row_view a.
Proof.
  intros Hview Ha. apply list_elem_of_lookup in Ha as [j Hj].
  destruct (row_view_lookup rows schedule j a Hview Hj) as (a' & Hj' & Heq).
  exists a'. split; [| exact Heq]. apply list_elem_of_lookup. eauto.
Qed.

Lemma row_view_slots (rows schedule : list ScheduleAssignment) :
  map row_view rows = map row_view schedule →
  map slot_of rows = map slot_of schedule.
Proof.
  intros Hview. apply (f_equal (map fst)) in Hview.
  by rewrite !map_map in Hview.
Qed.

(** With one row per slot, the row of a slot is the one [find] returns. *)
Lemma findAssignment_unique (rows : list ScheduleAssignment)
    (service : ServiceType) (func : RoleFunction) (a : ScheduleAssignment) :
  NoDup (map slot_of rows) →
  a ∈ rows → slot_of a = (service, func) →
  findAssignment rows service func = Some a.
Proof.
  unfold findAssignment.
  induction rows as [|r rows IH]; intros Hnd Ha Hslot.
  - by apply elem_of_nil in Ha.
  - simpl in Hnd. apply NoDup_cons in Hnd as [Hr Hnd]. simpl.
    apply elem_of_cons in Ha as [-> | Ha].
    + injection Hslot as -> ->.
      by rewrite !bool_decide_true.
    + destruct (bool_decide (service_type r = service)
                && bool_decide (function_name r = func)) eqn:Hmatch;
        [| by apply IH].
      apply andb_true_iff in Hmatch as [Hs Hf].
      apply bool_decide_eq_true in Hs, Hf.
      destruct Hr. apply list_elem_of_fmap. exists a.
      split; [| done]. rewrite Hslot. unfold slot_of. by rewrite Hs, Hf.
Qed.

Lemma findAssignment_none (rows : list ScheduleAssignment)
    (service : ServiceType) (func : RoleFunction) :
  findAssignment rows service func = None →
  (service, func) ∉ map slot_of rows.
Proof.
  unfold findAssignment. intros Hnone Hin.
  apply list_elem_of_fmap in Hin as (a & Hslot & Ha).
  apply list_elem_of_In in Ha.
  pose proof (find_none _ _ Hnone a Ha) as Hfalse. simpl in Hfalse.
  injection Hslot as -> ->.
  by rewrite !bool_decide_true in Hfalse.
Qed.

Lemma find_by_id (volunteers : list Volunteer) (v : Volunteer) :
  NoDup (map id volunteers) → v ∈ volunteers →
  List.find (λ w, bool_decide (id w = id v)) volunteers = Some v.
Proof.
  intros Hnd Hv.
  destruct (List.find _ volunteers) as [w |] eqn:Hfind.
  - apply find_some in Hfind as [Hw Hid].
    apply list_elem_of_In in Hw. apply bool_decide_eq_true in Hid.
    by rewrite (unique_id volunteers w v Hnd Hw Hv Hid).
  - apply list_elem_of_In in Hv.
    pose proof (find_none _ _ Hfind v Hv) as Hfalse. simpl in Hfalse.
    by rewrite bool_decide_true in Hfalse.
Qed.

(** ** The week grid *)

Lemma gridCell_not_applicable (volunteers : list Volunteer)
    (rows : list ScheduleAssignment) (service : ServiceType)
    (func : RoleFunction) :
  gridCell volunteers rows service func = CellNotApplicable
  ↔ isNeeded service func = false.
Proof.
  unfold gridCell. destruct (isNeeded service func); [| done].
  destruct (findAssignment rows service func) as [a |]; [| done].
  destruct (volunteer_id a) as [i |]; [| done].
  by destruct (i =? 0)%Z.
Qed.

(** X1. The grid and the generator agree on the slots: for the rows of
    a schedule that [generateSchedule] produced, a cell shows "N/A"
    exactly when the schedule has no row for its service and function. *)
Theorem grid_not_applicable_iff_unscheduled
    (volunteers : list Volunteer) (lastWeekData : list ScheduleAssignment)
    (week : string) (random : nat → Random) :
  ∃ schedule warns,
    generateSchedule volunteers lastWeekData week random
      = Some (schedule, warns)
    ∧ ∀ (shown : list Volunteer) (rows : list ScheduleAssignment)
        (service : ServiceType) (func : RoleFunction),
        map row_view rows = map row_view schedule →
        (gridCell shown rows service func = CellNotApplicable
         ↔ ¬ ∃ a, a ∈ rows ∧ service_type a = service
                  ∧ function_name a = func).
Proof.
  destruct (generateSchedule_loop_inv volunteers lastWeekData week random)
    as (st & Hgen & _ & Hslots).
  exists (assignments st), (warnings st). split; [exact Hgen |].
  intros shown rows service func Hview.
  apply row_view_slots in Hview. rewrite Hslots in Hview.
  rewrite gridCell_not_applicable, <- not_true_iff_false.
  rewrite isNeeded_visited, <- Hview, list_elem_of_fmap.
  unfold slot_of. split; intros Hno Hex; apply Hno.
  - destruct Hex as (a & Ha & <- & <-). by exists a.
  - destruct Hex as (a & Heq & Ha). injection Heq as -> ->. by exists a.
Qed.

(** With an empty roster every slot is vacant, and the cell of Consola
    on Domingo shows "N/A". *)
Lemma grid_not_applicable_iff_unscheduled_witness :
  gridCell []
    (newAssignment "2025-01-06" Domingo Transmision None
       :: other_slots_vacant "2025-01-06")
    Domingo Consola = CellNotApplicable.
Proof.
  destruct (grid_not_applicable_iff_unscheduled [] [] "2025-01-06"
              (λ _, random_zero)) as (schedule & warns & Hgen & Hall).
  run_schedule Hgen.
  apply (Hall []
           (newAssignment "2025-01-06" Domingo Transmision None
              :: other_slots_vacant "2025-01-06")
           Domingo Consola eq_refl).
  intros (a & Ha & Hs & Hf).
  apply list_elem_of_In in Ha. vm_compute in Ha.
  repeat (destruct Ha as [<- | Ha]; [discriminate |]). destruct Ha.
Defined.

(** X2. For a roster with unique ids, none of them 0, and the rows of a
    schedule that [generateSchedule] produced from it: the cell of a
    needed slot shows "Vacante" exactly when the vacancy warning of the
    slot was raised, and a name it shows is the name of a volunteer of
    the roster who is available for the service and has the row of the
    slot. *)
Theorem grid_cell_of_generated_schedule
    (volunteers : list Volunteer) (lastWeekData : list ScheduleAssignment)
    (week : string) (random : nat → Random) :
  NoDup (map id volunteers) →
  0%Z ∉ map id volunteers →
  ∃ schedule warns,
    generateSchedule volunteers lastWeekData week random
      = Some (schedule, warns)
    ∧ ∀ (rows : list ScheduleAssignment)
        (service : ServiceType) (func : RoleFunction),
        map row_view rows = map row_view schedule →
        isNeeded service func = true →
        (gridCell volunteers rows service func = CellVacante
         ↔ vacancyWarning func service ∈ warns)
        ∧ ∀ nm,
            gridCell volunteers rows service func = CellName nm →
            ∃ v a,
              v ∈ volunteers ∧ nm = Some (name v)
              ∧ service ∈ availability v
              ∧ a ∈ rows ∧ slot_of a = (service, func)
              ∧ volunteer_id a = Some (id v).
Proof.
  intros Hnd Hzero.
  destruct (generateSchedule_loop_inv volunteers lastWeekData week random)
    as (st & Hgen & (Hav & _ & Hvac & _) & Hslots).
  exists (assignments st), (warnings st). split; [exact Hgen |].
  intros rows service func Hview Hneeded.
  assert (map slot_of rows = visitedSlots) as Hrows.
  { by rewrite (row_view_slots _ _ Hview). }
  assert (∃ a, a ∈ rows ∧ slot_of a = (service, func)) as (a & Ha & Hslot).
  { apply isNeeded_visited in Hneeded. rewrite <- Hrows in Hneeded.
    apply list_elem_of_fmap in Hneeded as (a & ? & ?). by exists a. }
  assert (findAssignment rows service func = Some a) as Hfind.
  { apply findAssignment_unique; [| done | done].
    rewrite Hrows. apply NoDup_visitedSlots. }
  destruct (row_view_elem_of rows (assignments st) a Hview Ha)
    as (a' & Ha' & Hsame).
  unfold row_view in Hsame. injection Hsame as Hs' Hf' Hid'.
  assert (slot_of a' = (service, func)) as Hslot'.
  { unfold slot_of in *. by rewrite Hs', Hf'. }
  unfold gridCell. rewrite Hneeded, Hfind.
  destruct (volunteer_id a) as [i |] eqn:Hid.
  - destruct (Hav a' i Ha' Hid') as (v & Hv & Hvi & Hserv).
    assert (i ≠ 0%Z) as Hi.
    { intros ->. apply Hzero. apply list_elem_of_fmap. by exists v. }
    rewrite (proj2 (Z.eqb_neq i 0) Hi). split.
    + split; [done |]. intros Hwarn.
      apply Hvac in Hwarn as (b' & Hb' & Hbslot & Hbid).
      assert (b' = a') as ->; [| congruence].
      apply list_elem_of_lookup in Hb' as [jb Hjb].
      apply list_elem_of_lookup in Ha' as [ja Hja].
      assert (jb = ja) as ->; [| congruence].
      assert (NoDup (map slot_of (assignments st))) as Hnds
        by (rewrite Hslots; apply NoDup_visitedSlots).
      apply (NoDup_lookup _ jb ja (service, func) Hnds);
        rewrite list_lookup_fmap; [rewrite Hjb | rewrite Hja];
        simpl; by f_equal.
    + intros nm Hnm. injection Hnm as <-. subst i.
      rewrite (find_by_id volunteers v Hnd Hv).
      exists v, a.
      assert (service_type a' = service) as Hsa
        by (unfold slot_of in Hslot'; congruence).
      rewrite Hsa in Hserv. done.
  - split; [| done]. split; [| done]. intros _.
    apply Hvac. exists a'. by rewrite Hid'.
Qed.

(** Scenario A in the grid: Consola on Miércoles shows "Vacante" and
    its vacancy warning is in the list. *)
Lemma grid_cell_of_generated_schedule_witness :
  gridCell [scenario_volunteer "A" 0]
    (newAssignment "2025-01-06" Domingo Transmision (Some 1%Z)
       :: other_slots_vacant "2025-01-06")
    Miercoles Consola = CellVacante
  ↔ vacancyWarning Consola Miercoles ∈ other_slots_warnings.
Proof.
  destruct (grid_cell_of_generated_schedule [scenario_volunteer "A" 0] []
              "2025-01-06" (λ _, random_zero))
    as (schedule & warns & Hgen & Hall).
  - apply NoDup_singleton.
  - not_in_closed_list.
  - run_schedule Hgen.
    apply (Hall
             (newAssignment "2025-01-06" Domingo Transmision (Some 1%Z)
                :: other_slots_vacant "2025-01-06")
             Miercoles Consola); reflexivity.
Defined.

(** ** The "Asignados" figure *)

Lemma size_ids_with_null (ids : list (option Z)) :
  size (list_to_set ids : gset (option Z))
  = (size (list_to_set (omap (λ i, i) ids) : gset Z)
     + if bool_decide (None ∈ ids) then 1 else 0)%nat.
Proof.
  induction ids as [|x ids IH]; [done |].
  rewrite list_to_set_cons.
  assert (bool_decide (None ∈ x :: ids)
          = bool_decide (x = None) || bool_decide (None ∈ ids)) as ->.
  { apply eq_true_iff_eq.
    rewrite orb_true_iff, !bool_decide_eq_true, elem_of_cons.
    naive_solver. }
  destruct (decide (x ∈ ids)) as [Hx | Hx].
  - rewrite (subseteq_union_1_L {[x]} (list_to_set ids)), IH
      by (apply singleton_subseteq_l, elem_of_list_to_set, Hx).
    destruct x as [i |].
    + change (omap (λ i, i) (Some i :: ids)) with (i :: omap (λ i, i) ids).
      rewrite list_to_set_cons.
      rewrite (subseteq_union_1_L {[i]} (list_to_set (omap (λ i, i) ids)));
        [done |].
      apply singleton_subseteq_l, elem_of_list_to_set.
      apply list_elem_of_omap. by exists (Some i).
    + change (omap (λ i, i) (None :: ids)) with (omap (λ i : option Z, i) ids).
      by rewrite (bool_decide_true (None ∈ ids)) by done.
  - rewrite size_union, size_singleton, IH
      by (apply disjoint_singleton_l; by rewrite elem_of_list_to_set).
    destruct x as [i |].
    + change (omap (λ i, i) (Some i :: ids)) with (i :: omap (λ i, i) ids).
      rewrite list_to_set_cons, size_union, size_singleton; [simpl; lia |].
      apply disjoint_singleton_l. rewrite elem_of_list_to_set.
      rewrite list_elem_of_omap. intros (y & Hy & Heq).
      simpl in Heq. by subst y.
    + change (omap (λ i, i) (None :: ids)) with (omap (λ i : option Z, i) ids).
      rewrite (bool_decide_false (None ∈ ids)) by done. simpl. lia.
Qed.

Lemma omap_volunteer_id (rows : list ScheduleAssignment) :
  omap (λ i, i) (map volunteer_id rows) = omap volunteer_id rows.
Proof.
  induction rows as [|a rows IH]; [done |].
  change (omap (λ i, i) (map volunteer_id (a :: rows)))
    with (match volunteer_id a with
          | Some i => i :: omap (λ i, i) (map volunteer_id rows)
          | None => omap (λ i, i) (map volunteer_id rows)
          end).
  change (omap volunteer_id (a :: rows))
    with (match volunteer_id a with
          | Some i => i :: omap volunteer_id rows
          | None => omap volunteer_id rows
          end).
  by rewrite IH.
Qed.

(** X3. The "Asignados" figure counts a vacancy as one more volunteer:
    it is the number of distinct volunteer ids in the rows, plus one
    when some row has a null id. For the rows of a schedule that
    [generateSchedule] produced, that is when a vacancy warning was
    raised. *)
Theorem asignados_counts_vacancy
    (volunteers : list Volunteer) (lastWeekData : list ScheduleAssignment)
    (week : string) (random : nat → Random) :
  (∀ rows : list ScheduleAssignment,
     asignados rows
     = (size (list_to_set (omap volunteer_id rows) : gset Z)
        + if bool_decide (None ∈ map volunteer_id rows) then 1 else 0)%nat)
  ∧ ∃ schedule warns,
      generateSchedule volunteers lastWeekData week random
        = Some (schedule, warns)
      ∧ ∀ rows : list ScheduleAssignment,
          map row_view rows = map row_view schedule →
          (None ∈ map volunteer_id rows
           ↔ ∃ service role, vacancyWarning role service ∈ warns).
Proof.
  split.
  - intros rows. unfold asignados. rewrite size_ids_with_null.
    by rewrite omap_volunteer_id.
  - destruct (generateSchedule_loop_inv volunteers lastWeekData week random)
      as (st & Hgen & (_ & _ & Hvac & _) & _).
    exists (assignments st), (warnings st). split; [exact Hgen |].
    intros rows Hview.
    assert (map volunteer_id rows = map volunteer_id (assignments st))
      as ->.
    { apply (f_equal (map snd)) in Hview. by rewrite !map_map in Hview. }
    rewrite list_elem_of_fmap. split.
    + intros (a & Hid & Ha). exists (service_type a), (function_name a).
      apply Hvac. by exists a.
    + intros (service & role & Hwarn).
      apply Hvac in Hwarn as (a & Ha & _ & Hid). by exists a.
Qed.

(** With an empty roster the rows have a null id, and a vacancy warning
    was raised. *)
Lemma asignados_counts_vacancy_witness :
  ∃ service role,
    vacancyWarning role service
    ∈ vacancyWarning Transmision Domingo :: other_slots_warnings.
Proof.
  destruct (asignados_counts_vacancy [] [] "2025-01-06" (λ _, random_zero))
    as (_ & schedule & warns & Hgen & Hall).
  run_schedule Hgen.
  apply (Hall (newAssignment "2025-01-06" Domingo Transmision None
                 :: other_slots_vacant "2025-01-06") eq_refl).
  apply list_elem_of_here.
Defined.

(** ** The shifts of a volunteer *)

Lemma filter_elem_lookup {A : Type} (P : A → bool) (l : list A) :
  (1 ≤ length (List.filter P l))%nat →
  ∃ j a, l !! j = Some a ∧ P a = true.
Proof.
  induction l as [|x l IH]; simpl; [lia |].
  destruct (P x) eqn:Hx.
  - intros _. by exists 0%nat, x.
  - intros Hlen. destruct (IH Hlen) as (j & a & Hj & Ha).
    by exists (S j), a.
Qed.

Lemma filter_two_lookups {A : Type} (P : A → bool) (l : list A) :
  (2 ≤ length (List.filter P l))%nat →
  ∃ j k a b,
    (k < j)%nat ∧ l !! j = Some a ∧ l !! k = Some b
    ∧ P a = true ∧ P b = true.
Proof.
  induction l as [|x l IH]; simpl; [lia |].
  destruct (P x) eqn:Hx; simpl.
  - intros Hlen.
    destruct (filter_elem_lookup P l ltac:(lia)) as (j & a & Hj & Ha).
    exists (S j), 0%nat, a, x. repeat split; try done. lia.
  - intros Hlen. destruct (IH Hlen) as (j & k & a & b & ? & ? & ? & ? & ?).
    exists (S j), (S k), a, b. repeat split; try done. lia.
Qed.

(** X4. For the rows of a schedule that [generateSchedule] produced,
    the panel of a volunteer lists at most one shift unless one of the
    shifts is Coordinación, and no shift for an id that is not in the
    roster. *)
Theorem panel_shifts_of_generated_schedule
    (volunteers : list Volunteer) (lastWeekData : list ScheduleAssignment)
    (week : string) (random : nat → Random) :
  ∃ schedule warns,
    generateSchedule volunteers lastWeekData week random
      = Some (schedule, warns)
    ∧ ∀ (rows : list ScheduleAssignment) (selected : option Z)
        (shifts : list ScheduleAssignment),
        map row_view rows = map row_view schedule →
        volunteerPanel rows selected = Some shifts →
        ((∀ s, s ∈ shifts → function_name s ≠ Coordinacion) →
         (length shifts ≤ 1)%nat)
        ∧ ((∀ v, v ∈ volunteers → Some (id v) ≠ selected) →
           shifts = []).
Proof.
  destruct (generateSchedule_loop_inv volunteers lastWeekData week random)
    as (st & Hgen & (Hav & _ & _ & _ & Hco) & _).
  exists (assignments st), (warnings st). split; [exact Hgen |].
  intros rows selected shifts Hview Hpanel.
  unfold volunteerPanel in Hpanel.
  destruct selected as [i |]; [| discriminate Hpanel].
  destruct (i =? 0)%Z; [discriminate Hpanel |].
  injection Hpanel as <-.
  set (mine := λ s : ScheduleAssignment,
                 bool_decide (volunteer_id s = Some i)).
  assert (∀ j a, rows !! j = Some a → mine a = true →
            a ∈ List.filter mine rows) as Hshift.
  { intros j a Hj Ha. apply list_elem_of_In, filter_In.
    split; [| exact Ha]. apply list_elem_of_In, list_elem_of_lookup. eauto. }
  split.
  - intros Hnocoord.
    destruct (Nat.le_gt_cases (length (List.filter mine rows)) 1)
      as [| Htwo]; [done | exfalso].
    destruct (filter_two_lookups mine rows Htwo)
      as (j & k & a & b & Hkj & Hj & Hk & Ha & Hb).
    apply bool_decide_eq_true in Ha as Hai, Hb as Hbi.
    destruct (row_view_lookup rows (assignments st) j a Hview Hj)
      as (a' & Hj' & Hva).
    destruct (row_view_lookup rows (assignments st) k b Hview Hk)
      as (b' & Hk' & Hvb).
    unfold row_view in Hva, Hvb.
    injection Hva as _ Hfa Hida. injection Hvb as _ _ Hidb.
    destruct (Hco j k a' b' i Hkj Hj' ltac:(congruence) Hk'
                ltac:(congruence)) as [Hcoord | (m & c' & Hm & Hc' & Hci & Hcr)].
    + apply (Hnocoord a (Hshift j a Hj Ha)). congruence.
    + destruct (row_view_lookup (assignments st) rows m c' (eq_sym Hview)
                  Hc') as (c & Hc & Hvc).
      unfold row_view in Hvc. injection Hvc as _ Hfc Hidc.
      apply (Hnocoord c); [| congruence].
      apply (Hshift m c Hc). apply bool_decide_eq_true. congruence.
  - intros Hnone. apply filter_none. intros a Ha.
    apply bool_decide_eq_false. intros Hid.
    destruct (row_view_elem_of rows (assignments st) a Hview Ha)
      as (a' & Ha' & Hva).
    unfold row_view in Hva. injection Hva as _ _ Hida.
    destruct (Hav a' i Ha' ltac:(congruence)) as (v & Hv & Hvi & _).
    apply (Hnone v Hv). by rewrite Hvi.
Qed.

(** Scenario A: the panel of volunteer 1 lists one shift. *)
Lemma panel_shifts_of_generated_schedule_witness :
  (length
     (List.filter (λ s, bool_decide (volunteer_id s = Some 1%Z))
        (newAssignment "2025-01-06" Domingo Transmision (Some 1%Z)
           :: other_slots_vacant "2025-01-06")) ≤ 1)%nat.
Proof.
  destruct (panel_shifts_of_generated_schedule [scenario_volunteer "A" 0] []
              "2025-01-06" (λ _, random_zero))
    as (schedule & warns & Hgen & Hall).
  run_schedule Hgen.
  destruct (Hall
              (newAssignment "2025-01-06" Domingo Transmision (Some 1%Z)
                 :: other_slots_vacant "2025-01-06")
              (Some 1%Z) _ eq_refl eq_refl) as [Hone _].
  apply Hone. intros s Hs.
  apply list_elem_of_In in Hs. vm_compute in Hs.
  destruct Hs as [<- | []]. discriminate.
Defined.

(** ** The top ten *)

(** X5. The top ten is the roster sorted by score, highest first, cut
    after ten: it has ten entries, or the whole roster when that is
    shorter; it is in descending order of score; and together with the
    volunteers it leaves out it is a rearrangement of the roster, none of
    those left out having a higher score than one that is shown. *)
Theorem top10_are_the_highest_scores (volunteers : list Volunteer) :
  length (top10Volunteers volunteers) = (10 `min` length volunteers)%nat
  ∧ StronglySorted score_order (top10Volunteers volunteers)
  ∧ ∃ rest,
      top10Volunteers volunteers ++ rest ≡ₚ volunteers
      ∧ Forall
          (λ v, Forall (λ w, (total_score w ≤ total_score v)%Z) rest)
          (top10Volunteers volunteers).
Proof.
  unfold top10Volunteers.
  pose proof (sortStable_sorted volunteers) as Hsorted.
  pose proof (sortStable_Permutation compareScore volunteers) as Hperm.
  rewrite <- (take_drop 10 (sortStable compareScore volunteers)) in Hsorted.
  apply StronglySorted_app in Hsorted as (Hcross & Htop & _).
  split; [| split; [exact Htop |]].
  - by rewrite length_take, (Permutation_length Hperm).
  - exists (drop 10 (sortStable compareScore volunteers)).
    split; [by rewrite take_drop |].
    apply Forall_forall. intros v Hv.
    apply Forall_forall. intros w Hw. by apply Hcross.
Qed.

(** X6. The sort is stable: volunteers with the same score stand in the
    top ten in the order of the roster, the first of them first. *)
Theorem top10_ties_in_roster_order (volunteers : list Volunteer)
    (score : Z) :
  withScore score (top10Volunteers volunteers)
  `prefix_of` withScore score volunteers.
Proof.
  unfold top10Volunteers.
  rewrite <- (withScore_sortStable score volunteers).
  rewrite <- (take_drop 10 (sortStable compareScore volunteers)) at 2.
  unfold withScore. rewrite List.filter_app. by eexists.
Qed.

(** ** The registration form *)

(** X7. The functions (and the days) selected in the registration form
    after any sequence of clicks on the buttons, from the empty form:
    no entry is selected twice, and an entry is selected exactly when
    its button was clicked an odd number of times. *)
Theorem selection_after_clicks {A : Type} `{EqDecision A}
    (clicks : list A) :
  NoDup (afterClicks [] clicks)
  ∧ ∀ x, x ∈ afterClicks [] clicks ↔ Nat.odd (clicksOn x clicks) = true.
Proof.
  destruct (afterClicks_spec clicks [] (NoDup_nil_2)) as [Hnd Hin].
  split; [exact Hnd |]. intros x. rewrite Hin.
  by rewrite (bool_decide_false (x ∈ [])) by apply not_elem_of_nil.
Qed.

(** X8. The notes box shows what was typed: joining the notes that
    [split] made of a text gives the text back. The notes are never the
    empty list, and no note contains a line feed. *)
Theorem notes_show_what_was_typed (text : string) :
  join_lines (split_lines text) = text
  ∧ split_lines text ≠ []
  ∧ Forall (λ note, one_line note = true) (split_lines text).
Proof.
  split; [apply join_split_lines |].
  split; [apply split_lines_nonempty | apply split_lines_one_line].
Qed.

(** X9. Notes that are shown and read back are unchanged, when there is
    at least one note and no note contains a line feed; the empty list
    of the reset form is read back as one empty note. *)
Theorem notes_survive_display (notes : list string) :
  (notes ≠ [] →
   Forall (λ note, one_line note = true) notes →
   split_lines (join_lines notes) = notes)
  ∧ split_lines (join_lines []) = [EmptyString].
Proof.
  split; [| reflexivity].
  intros Hne Hall. induction Hall as [|note notes Hnote Hall IH]; [done |].
  destruct notes as [|note' notes].
  - simpl. by apply split_lines_single.
  - rewrite join_lines_cons by done.
    rewrite split_lines_append by done.
    by rewrite IH.
Qed.

Lemma notes_survive_display_witness :
  split_lines (join_lines ["No puede el 15"; "Llega tarde"])
  = ["No puede el 15"; "Llega tarde"].
Proof.
  apply (proj1 (notes_survive_display ["No puede el 15"; "Llega tarde"]));
    [discriminate | by repeat constructor].
Defined.

Lemma form_functions_after (events : list FormEvent) : ∀ form,
  new_functions (foldl formStep form events)
  = afterClicks (new_functions form) (functionClicks events).
Proof.
  induction events as [|event events IH]; intros form; [done |].
  simpl. rewrite IH. by destruct event.
Qed.

Lemma form_availability_after (events : list FormEvent) : ∀ form,
  new_availability (foldl formStep form events)
  = afterClicks (new_availability form) (serviceClicks events).
Proof.
  induction events as [|event events IH]; intros form; [done |].
  simpl. rewrite IH. by destruct event.
Qed.

Lemma form_notes_after (events : list FormEvent) : ∀ form,
  notes_of_form (new_restrictions form) →
  notes_of_form (new_restrictions (foldl formStep form events)).
Proof.
  induction events as [|event events IH]; intros form Hform; [done |].
  simpl. apply IH. destruct event; simpl; try done.
  right. split; [apply split_lines_nonempty | apply split_lines_one_line].
Qed.

Lemma selected_iff_odd_click {A : Type} `{EqDecision A} (clicks : list A) :
  afterClicks [] clicks ≠ []
  ↔ ∃ x, Nat.odd (clicksOn x clicks) = true.
Proof.
  destruct (afterClicks_spec clicks [] (NoDup_nil_2)) as [_ Hin].
  assert (∀ x, x ∈ afterClicks [] clicks
               ↔ Nat.odd (clicksOn x clicks) = true) as Hin'.
  { intros x. rewrite Hin.
    by rewrite (bool_decide_false (x ∈ [])) by apply not_elem_of_nil. }
  split.
  - destruct (afterClicks [] clicks) as [|x selection] eqn:Hsel; [done |].
    intros _. exists x. apply Hin'. apply list_elem_of_here.
  - intros (x & Hodd) Hnil. apply Hin' in Hodd. rewrite Hnil in Hodd.
    by apply elem_of_nil in Hodd.
Qed.

(** X10. A form filled from the empty form by typing and clicking is
    posted exactly when the name is not empty, some function button was
    clicked an odd number of times and some day button was clicked an
    odd number of times. In the form no function and no day is selected
    twice, and the notes are none, or the lines of the text typed last. *)
Theorem registration_of_filled_form (events : list FormEvent) :
  let form := foldl formStep emptyForm events in
  (registerVolunteer form = Some form
   ↔ new_name form ≠ EmptyString
     ∧ (∃ f, Nat.odd (clicksOn f (functionClicks events)) = true)
     ∧ (∃ s, Nat.odd (clicksOn s (serviceClicks events)) = true))
  ∧ NoDup (new_functions form)
  ∧ NoDup (new_availability form)
  ∧ notes_of_form (new_restrictions form).
Proof.
  intros form.
  assert (new_functions form = afterClicks [] (functionClicks events))
    as Hfun by apply form_functions_after.
  assert (new_availability form = afterClicks [] (serviceClicks events))
    as Hav by apply form_availability_after.
  split; [| split; [| split]].
  - rewrite <- !selected_iff_odd_click, <- Hfun, <- Hav.
    unfold registerVolunteer.
    destruct (decide (new_name form = EmptyString)) as [Hname | Hname].
    + rewrite (bool_decide_true _ Hname). simpl. naive_solver.
    + rewrite (bool_decide_false _ Hname). simpl.
      destruct (new_functions form) as [|f fs]; simpl; [naive_solver |].
      destruct (new_availability form) as [|s ss]; simpl; naive_solver.
  - rewrite Hfun.
    apply (afterClicks_spec (functionClicks events) [] (NoDup_nil_2)).
  - rewrite Hav.
    apply (afterClicks_spec (serviceClicks events) [] (NoDup_nil_2)).
  - apply form_notes_after. by left.
Qed.

(** ** What the assignment loop does not read *)

Lemma for_of_ext {A S : Type} (xs : list A) (body body' : A → S → option S) :
  (∀ x st, body x st = body' x st) →
  ∀ st, for_of xs body st = for_of xs body' st.
Proof.
  intros Hext. induction xs as [|x xs IH]; intros st; simpl; [done |].
  rewrite Hext. destruct (body' x st); [apply IH | done].
Qed.

Lemma filter_map_commute {A B : Type} (f : B → bool) (g : A → B)
    (l : list A) :
  List.filter f (map g l) = map g (List.filter (λ x, f (g x)) l).
Proof.
  induction l as [|x l IH]; simpl; [done |].
  destruct (f (g x)); simpl; by rewrite IH.
Qed.

Lemma at_index_map {A B : Type} (g : A → B) (arr : list A) (k : Z) :
  at_index (map g arr) k = g <$> at_index arr k.
Proof.
  unfold at_index. destruct (k <? 0)%Z; [done |].
  apply list_lookup_fmap.
Qed.

Lemma slotBody_schedulingView volunteers lastWeekData week random
    service role st :
  slotBody (map schedulingView volunteers) lastWeekData week random
    service role st
  = slotBody volunteers lastWeekData week random service role st.
Proof.
  unfold slotBody, strictCandidates, relaxedCandidates.
  rewrite !filter_map_commute.
  change (λ x, strictFilter ?lw ?used ?s ?r (schedulingView x))
    with (strictFilter lw used s r).
  change (λ x, relaxedFilter ?used ?s ?r (schedulingView x))
    with (relaxedFilter used s r).
  set (strict := List.filter (strictFilter _ _ _ _) volunteers).
  set (relaxed := List.filter (relaxedFilter _ _ _) volunteers).
  rewrite !length_map.
  destruct (bool_decide (length strict = 0)).
  - destruct (bool_decide (0 < length relaxed)) eqn:Hrelaxed;
      rewrite ?length_map, ?at_index_map, ?Hrelaxed; [| done].
    by destruct (at_index relaxed _).
  - destruct (bool_decide (0 < length strict)) eqn:Hstrict;
      rewrite ?length_map, ?at_index_map, ?Hstrict; [| done].
    by destruct (at_index strict _).
Qed.

Lemma slotBody_lastWeek volunteers lastWeekData lastWeekData' week random
    service role st :
  lastWeekVolunteers lastWeekData = lastWeekVolunteers lastWeekData' →
  slotBody volunteers lastWeekData week random service role st
  = slotBody volunteers lastWeekData' week random service role st.
Proof.
  intros Hsame. unfold slotBody, strictCandidates. by rewrite Hsame.
Qed.

(** X11. The schedule does not depend on the names, the notes or the
    scores of the volunteers (the score is not used to balance the
    load), and it depends on last week's rows only through the set of
    their volunteer ids. *)
Theorem schedule_ignores_scores_and_names
    (volunteers : list Volunteer) (lastWeekData : list ScheduleAssignment)
    (week : string) (random : nat → Random) :
  generateSchedule (map schedulingView volunteers) lastWeekData week random
  = generateSchedule volunteers lastWeekData week random
  ∧ ∀ lastWeekData',
      lastWeekVolunteers lastWeekData = lastWeekVolunteers lastWeekData' →
      generateSchedule volunteers lastWeekData' week random
      = generateSchedule volunteers lastWeekData week random.
Proof.
  split.
  - unfold generateSchedule.
    rewrite (for_of_ext ALL_SERVICES _
               (λ service st,
                  for_of (neededFunctions service)
                    (λ role st',
                       slotBody volunteers lastWeekData week random
                         service role st') st)); [done |].
    intros service st. apply for_of_ext.
    intros role st'. apply slotBody_schedulingView.
  - intros lastWeekData' Hsame. unfold generateSchedule.
    rewrite (for_of_ext ALL_SERVICES _
               (λ service st,
                  for_of (neededFunctions service)
                    (λ role st',
                       slotBody volunteers lastWeekData week random
                         service role st') st)); [done |].
    intros service st. apply for_of_ext.
    intros role st'. symmetry. by apply slotBody_lastWeek.
Qed.

Lemma schedule_ignores_scores_and_names_witness :
  generateSchedule [scenario_volunteer "Ana" 5]
    [scenarioB_row (Some 7%Z) "2024-12-23"; scenarioB_row None "2024-12-30"]
    "2025-01-06" (λ _, random_zero)
  = generateSchedule [scenario_volunteer "Ana" 5]
      [scenarioB_row None "2024-12-30"] "2025-01-06" (λ _, random_zero).
Proof.
  apply (proj2 (schedule_ignores_scores_and_names
                  [scenario_volunteer "Ana" 5]
                  [scenarioB_row None "2024-12-30"]
                  "2025-01-06" (λ _, random_zero))).
  unfold lastWeekVolunteers. cbn [map scenarioB_row volunteer_id].
  set_solver.
Defined.

(** ** Why a slot is vacant *)

Section VacancyReason.

Variable volunteers : list Volunteer.
Variable lastWeekData : list ScheduleAssignment.
Variable currentWeekStart : string.

Lemma weeklyBlocked_used st role i :
  used_inv st →
  weeklyBlocked (assignments st) role i
  ↔ ¬ weeklyLimitAllows (usedThisWeek st) role i.
Proof.
  intros Hused. unfold weeklyBlocked, weeklyLimitAllows. split.
  - intros (Hrole & (b & Hb & Hbi) & Hnone) [Hempty | [Hc | Hc]].
    + assert (function_name b ∈ rolesUsedOf (usedThisWeek st) i) as Hin
        by (apply Hused; eauto).
      rewrite Hempty in Hin. by apply not_elem_of_empty in Hin.
    + done.
    + apply Hused in Hc as (c & Hc & Hci & Hcr). by eapply Hnone.
  - intros Hno. split; [| split].
    + intros ->. apply Hno. right. by left.
    + destruct (set_choose_or_empty (rolesUsedOf (usedThisWeek st) i))
        as [[r Hr] | Hempty].
      * apply Hused in Hr as (b & Hb & Hbi & _). eauto.
      * destruct Hno. left. by apply leibniz_equiv.
    + intros c Hc Hci Hcr. apply Hno. right. right.
      apply Hused. eauto.
Qed.

Lemma vacancy_reason_step st service role st' :
  used_inv st → vacancy_reason volunteers (assignments st) →
  slot_outcome volunteers lastWeekData currentWeekStart st service role st' →
  vacancy_reason volunteers (assignments st').
Proof.
  intros Hused Hinv Hout.
  assert (Hnew : ∀ vid,
    (vid = None
     ↔ ∀ v, v ∈ volunteers → service ∈ availability v →
         weeklyBlocked (assignments st) role (id v)) →
    vacancy_reason volunteers
      (assignments st ++ [newAssignment currentWeekStart service role vid])).
  { intros vid Hvid j a Ha.
    apply lookup_snoc_Some in Ha as [[Hj Ha] | [-> <-]].
    - rewrite take_app_le by lia. by apply Hinv.
    - rewrite take_app_length. exact Hvid. }
  assert (Hassigned : ∀ sel,
    sel ∈ volunteers → service ∈ availability sel →
    weeklyLimitAllows (usedThisWeek st) role (id sel) →
    Some (id sel) = None
    ↔ ∀ v, v ∈ volunteers → service ∈ availability v →
        weeklyBlocked (assignments st) role (id v)).
  { intros sel Hin Hav Hlimit. split; [done |]. intros Hall.
    apply Hall in Hav; [| done].
    by apply weeklyBlocked_used in Hav. }
  destruct Hout as [sel Hsel | sel _ Hsel | _ Hrel]; simpl; apply Hnew.
  - apply elem_of_strictCandidates in Hsel as (? & ? & _ & _ & ?).
    by apply Hassigned.
  - apply elem_of_relaxedCandidates in Hsel as (? & ? & ?).
    by apply Hassigned.
  - split; [| done]. intros _ v Hv Hav.
    apply weeklyBlocked_used; [done |]. intros Hlimit.
    assert (v ∈ relaxedCandidates volunteers st service role) as Hin
      by (apply elem_of_relaxedCandidates; eauto).
    rewrite Hrel in Hin. by apply elem_of_nil in Hin.
Qed.

Lemma vacancy_reason_final slots st :
  slots_outcome volunteers lastWeekData currentWeekStart slots
    initialState st →
  vacancy_reason volunteers (assignments st).
Proof.
  intros Hrun.
  enough (used_inv st ∧ vacancy_reason volunteers (assignments st))
    as [_ Hreason] by exact Hreason.
  eapply (slots_outcome_invariant _ _ _
            (λ st, used_inv st
                   ∧ vacancy_reason volunteers (assignments st)));
    [| exact Hrun |].
  - clear. intros st service role st' [Hused Hinv] Hout. split.
    + by eapply used_inv_step.
    + by eapply vacancy_reason_step.
  - split.
    + apply (loop_inv_initial volunteers lastWeekData).
    + intros j a Ha. simpl in Ha. by rewrite lookup_nil in Ha.
Qed.

End VacancyReason.

(** X12. A slot of the generated schedule is vacant exactly when every
    volunteer available for its service is stopped by the weekly limit:
    the slot is not Coordinación, and the volunteer already holds an
    earlier slot of the week, none of them Coordinación.  So a
    Coordinación slot is vacant only if nobody is available for the
    service. *)
Theorem vacant_only_by_weekly_limit
    (volunteers : list Volunteer) (lastWeekData : list ScheduleAssignment)
    (week : string) (random : nat → Random) :
  ∃ schedule warns,
    generateSchedule volunteers lastWeekData week random
      = Some (schedule, warns)
    ∧ vacancy_reason volunteers schedule
    ∧ ∀ a v, a ∈ schedule → volunteer_id a = None →
        function_name a = Coordinacion →
        v ∈ volunteers → service_type a ∉ availability v.
Proof.
  destruct (generateSchedule_outcome volunteers lastWeekData week random)
    as (st & Hgen & Hrun).
  exists (assignments st), (warnings st).
  apply vacancy_reason_final in Hrun as Hreason.
  split; [exact Hgen |]. split; [exact Hreason |].
  intros a v Ha Hnone Hrole Hv Hav.
  apply list_elem_of_lookup in Ha as [j Ha].
  destruct (proj1 (Hreason j a Ha) Hnone v Hv Hav) as [Hne _].
  by apply Hne.
Qed.

Lemma vacant_only_by_weekly_limit_witness :
  Miercoles ∉ availability (scenario_volunteer "Ana" 5).
Proof.
  destruct (vacant_only_by_weekly_limit [scenario_volunteer "Ana" 5] []
              "2025-01-06" (λ _, random_zero))
    as (schedule & warns & Hgen & _ & Hcoord).
  run_schedule Hgen.
  apply (Hcoord (newAssignment "2025-01-06" Miercoles Coordinacion None)).
  - apply list_elem_of_In. vm_compute.
    repeat (first [left; reflexivity | right]).
  - reflexivity.
  - reflexivity.
  - apply list_elem_of_here.
Defined.
